(** * chempict: ring path edges and the 2-D coordinate generator

    A shallow embedding of
      - src/ring/path_edge.js            (module [PathEdge]),
      - src/model/bond.js, src/ring/ring.js, src/math/coordinate.js
                                         (module [Model]),
      - src/layout/coordinate_generator.js (module [CoordinateGenerator]).

    JavaScript objects are compared by reference ([===]); atoms, bonds and
    rings are therefore represented by handles (indices into the store that
    owns them) and the mutable fields live in that store.  A JavaScript
    number is an IEEE-754 double, here a primitive [float]. *)

From Stdlib Require Import ZArith Lia Floats.PrimFloat Sorting.Sorted.
From Stdlib Require Numbers.Cyclic.Int63.Uint63.
From stdpp Require Import base decidable option list strings.

Open Scope Z_scope.
Open Scope nat_scope.

(** ** JavaScript values used by the embedded code *)

Module JS.

(** How a call ends: it returns a value, or it throws [Error(msg)]. *)
Inductive Completion (A : Type) : Type :=
| Normal (a : A)
| Throw (msg : string).
Arguments Normal {A} a.
Arguments Throw {A} msg.

Definition bind {A B} (c : Completion A) (k : A -> Completion B) : Completion B :=
  match c with
  | Normal a => k a
  | Throw msg => Throw msg
  end.

(** [arr[i]]: reading outside the array (also at a negative index) gives
    [undefined], here [None]. *)
Definition index {A} (arr : list A) (i : Z) : option A :=
  if decide (i < 0)%Z then None else arr !! Z.to_nat i.

(** [arr.length] *)
Definition len {A} (arr : list A) : Z := Z.of_nat (length arr).

(** [a === b] on object references that may be [undefined]:
    [undefined === undefined] is true. *)
Definition strict_eq {A} `{EqDecision A} (a b : option A) : bool :=
  bool_decide (a = b).

(** [for (let i = lo; i < hi; i++) acc.push(arr[i])] *)
Definition push_up {A} (arr : list A) (lo hi : nat) (acc : list A) : list A :=
  foldl (fun acc i => match arr !! i with
                      | Some a => acc ++ [a]
                      | None => acc
                      end) acc (seq lo (hi - lo)).

(** [for (let i = hi; i >= 0; i--) acc.push(arr[i])] *)
Definition push_down {A} (arr : list A) (hi : Z) (acc : list A) : list A :=
  foldl (fun acc i => match arr !! i with
                      | Some a => acc ++ [a]
                      | None => acc
                      end) acc (reverse (seq 0 (Z.to_nat (hi + 1)))).

End JS.

#[global] Instance completion_bind : MBind JS.Completion := fun _ _ k c => JS.bind c k.
#[global] Instance completion_ret : MRet JS.Completion := fun _ a => JS.Normal a.

(** Object identity of an atom: its handle. *)
Definition AtomRef := nat.

(** ** src/ring/path_edge.js *)

Module PathEdge.
Import JS.

Record RingPathEdge := { atoms : list AtomRef }.

Definition isCycle (this : RingPathEdge) : bool :=
  let lastAtomPos := (len (atoms this) - 1)%Z in
  bool_decide (len (atoms this) > 2)%Z
  && strict_eq (index (atoms this) 0) (index (atoms this) lastAtomPos).

Definition isRealPath (atoms : list AtomRef) : bool :=
  let il := (len atoms - 1)%Z in
  let range := seq 1 (Z.to_nat (il - 1)) in
  forallb (fun i =>
    forallb (fun j =>
      if decide (i = j) then true
      else negb (strict_eq (index atoms (Z.of_nat i)) (index atoms (Z.of_nat j))))
      range) range.

Definition no_intersection : string := "Couldn't splice - no intersection".

Definition getIntersection (this : RingPathEdge) (others : list AtomRef)
  : Completion (option AtomRef) :=
  let lastAtomPos := (len (atoms this) - 1)%Z in
  let lastOtherPos := (len others - 1)%Z in
  if strict_eq (index (atoms this) lastAtomPos) (index others 0)
     || strict_eq (index (atoms this) lastAtomPos) (index others lastOtherPos)
  then Normal (index (atoms this) lastAtomPos)
  else if strict_eq (index (atoms this) 0) (index others 0)
          || strict_eq (index (atoms this) 0) (index others lastOtherPos)
  then Normal (index (atoms this) 0)
  else Throw no_intersection.

(** The array [newAtoms] that [splice] builds once the intersection is known. *)
Definition spliceAtoms (this other : RingPathEdge) (intersection : option AtomRef)
  : list AtomRef :=
  let newAtoms := push_up (atoms this) 0 (length (atoms this)) [] in
  let newAtoms :=
    if strict_eq (index (atoms this) 0) intersection
    then reverse newAtoms else newAtoms in
  if strict_eq (index (atoms other) 0) intersection
  then push_up (atoms other) 1 (length (atoms other)) newAtoms
  else push_down (atoms other) (len (atoms other) - 2) newAtoms.

(** [splice]: [Normal None] is the JavaScript [null]. *)
Definition splice (this other : RingPathEdge) : Completion (option RingPathEdge) :=
  intersection ← getIntersection this (atoms other);
  let newAtoms := spliceAtoms this other intersection in
  if negb (isRealPath newAtoms) then Normal None
  else Normal (Some {| atoms := newAtoms |}).

(** *** Vocabulary of the specification *)

Definition firstAtom (e : RingPathEdge) : option AtomRef := index (atoms e) 0.
Definition lastAtom (e : RingPathEdge) : option AtomRef :=
  index (atoms e) (len (atoms e) - 1).

(** The first or the last atom of one edge equals ([===]) the first or the
    last atom of the other. *)
Definition sharesEndpoint (this other : RingPathEdge) : Prop :=
  lastAtom this = firstAtom other \/ lastAtom this = lastAtom other \/
  firstAtom this = firstAtom other \/ firstAtom this = lastAtom other.

Definition isEndpoint (a : AtomRef) (e : RingPathEdge) : Prop :=
  firstAtom e = Some a \/ lastAtom e = Some a.

(** Atom [a] is an endpoint of both edges. *)
Definition sharedEndpoint (this other : RingPathEdge) (a : AtomRef) : Prop :=
  isEndpoint a this /\ isEndpoint a other.

(** Some atom stands at two different interior positions (neither the
    first nor the last) of the sequence. *)
Definition interiorRepeat (l : list AtomRef) : Prop :=
  exists i j a, 0 < i /\ i < j /\ j < length l - 1 /\ l !! i = Some a /\ l !! j = Some a.

(** The merged walk, in words: [this] turned so that it ends at the shared
    atom, followed by [other] turned so that it starts there, the shared
    atom written once. *)
Definition mergedWalk (a : AtomRef) (this other : list AtomRef) : list AtomRef :=
  (if decide (head this = Some a) then reverse this else this)
    ++ tail (if decide (head other = Some a) then other else reverse other).

End PathEdge.

(** ** The graph model *)

Module Model.

(** src/math/coordinate.js *)
Record MathCoordinate := { x : float; y : float }.

(** [new MathVector2D(x, y)]: the constructor of src/math/vector2d.js as the
    generator calls it. *)
Module Vector2D.
Record MathVector2D := { x : float; y : float }.
End Vector2D.
Abbreviation MathVector2D := Vector2D.MathVector2D.

(** The flag names of src/model/flags.js that the generator uses. *)
Inductive modelFlags := ISPLACED | VISITED | ISINRING | ISALIPHATIC.

(** [flags]: the array of booleans of an atom or a ring, read at a flag name.
    An entry never written is [undefined], which every reader treats as
    false. *)
Record FlagArray := {
  placed : bool;
  visited : bool;
  inRing : bool;
  aliphatic : bool
}.

Definition noFlags : FlagArray :=
  {| placed := false; visited := false; inRing := false; aliphatic := false |}.

Definition getFlag (flags : FlagArray) (flagType : modelFlags) : bool :=
  match flagType with
  | ISPLACED => placed flags
  | VISITED => visited flags
  | ISINRING => inRing flags
  | ISALIPHATIC => aliphatic flags
  end.

(** [flags[flagType] = flagValue] *)
Definition writeFlag (flagType : modelFlags) (flagValue : bool) (flags : FlagArray)
  : FlagArray :=
  match flagType with
  | ISPLACED => {| placed := flagValue; visited := visited flags;
                   inRing := inRing flags; aliphatic := aliphatic flags |}
  | VISITED => {| placed := placed flags; visited := flagValue;
                  inRing := inRing flags; aliphatic := aliphatic flags |}
  | ISINRING => {| placed := placed flags; visited := visited flags;
                   inRing := flagValue; aliphatic := aliphatic flags |}
  | ISALIPHATIC => {| placed := placed flags; visited := visited flags;
                      inRing := inRing flags; aliphatic := flagValue |}
  end.

(** An atom object, as far as the generator touches it: [coord] is the
    coordinate every reader uses ([null] until placed); [coords] is the
    property that line 57 of [generate] assigns. *)
Record ModelAtom := {
  coord : option MathCoordinate;
  coords : option MathCoordinate;
  flags : FlagArray
}.

(** [atom.setFlag(flagType, flagValue)]: [this.flags[flagType] = flagValue],
    as [RingRing.prototype.setFlag] of ring.js has it. *)
Definition setFlag (flagType : modelFlags) (flagValue : bool) (atom : ModelAtom)
  : ModelAtom :=
  {| coord := coord atom; coords := coords atom;
     flags := writeFlag flagType flagValue (flags atom) |}.

(** src/model/bond.js *)
Inductive ORDER := SINGLE | DOUBLE | TRIPLE | QUADRUPLE.
Inductive STEREO := NOT_STEREO | UP | UP_OR_DOWN | DOWN.

Record ModelBond := {
  source : AtomRef;
  target : AtomRef;
  order : ORDER;
  stereo : STEREO;
  aromatic : bool
}.

(** [bond.otherAtom(atom)]; [None] is [null]. *)
Definition otherAtom (this : ModelBond) (atom : AtomRef) : option AtomRef :=
  if decide (atom = source this) then Some (target this)
  else if decide (atom = target this) then Some (source this)
  else None.

(** A molecule: the store of its atoms (an atom's handle is its position),
    its bonds and its fragment count. *)
Record ModelMolecule := {
  atoms : list ModelAtom;
  bonds : list ModelBond;
  fragmentCount : nat
}.

Definition countAtoms (m : ModelMolecule) : nat := length (atoms m).
Definition countBonds (m : ModelMolecule) : nat := length (bonds m).

(** Object identity of a ring and of a bond: the position in the array that
    holds it ([sssr], [molecule.bonds]). *)
Definition RingRef := nat.
Definition BondRef := nat.

(** src/ring/ring.js; [isPlaced] is the property that [generate] and
    [layoutNextRingSystem] assign and [resetUnplacedRingAtoms] reads. *)
Module Ring.
Record RingRing := {
  atoms : list AtomRef;
  bonds : list BondRef;
  flags : FlagArray;
  isPlaced : bool;
  _center : option MathCoordinate
}.
End Ring.
Abbreviation RingRing := Ring.RingRing.

(** [ring[j]] for a number [j]: a [RingRing] has the properties [atoms],
    [bonds], [flags] and [_center] and none keyed by a number, so the lookup
    yields [undefined]. *)
Definition ringElement (ring : RingRing) (j : nat) : option AtomRef := None.

(** What one run of the generator works on: the molecule and its ring
    objects. *)
Record State := {
  molecule : ModelMolecule;
  sssr : list RingRing
}.

Definition withAtoms (new : list ModelAtom) (st : State) : State :=
  {| molecule := {| atoms := new; bonds := bonds (molecule st);
                    fragmentCount := fragmentCount (molecule st) |};
     sssr := sssr st |}.

(** Apply [f] to the atom object behind a handle. *)
Definition updateAtom (atom : AtomRef) (f : ModelAtom -> ModelAtom) (st : State) : State :=
  withAtoms (alter f atom (atoms (molecule st))) st.

Definition updateRing (ring : RingRef) (f : RingRing -> RingRing) (st : State) : State :=
  {| molecule := molecule st; sssr := alter f ring (sssr st) |}.

(** [atom.flags[flagType]] read through a handle. *)
Definition atomFlag (st : State) (atom : AtomRef) (flagType : modelFlags) : bool :=
  match atoms (molecule st) !! atom with
  | Some a => getFlag (flags a) flagType
  | None => false
  end.

End Model.

(** ** src/layout/coordinate_generator.js *)

Module CoordinateGenerator.
Import JS Model.

(** How [generate] ends: it returns the molecule, it throws (the state is the
    one the throw leaves behind), or the model ran out of fuel. *)
Inductive Outcome :=
| Returned (st : State)
| Thrown (msg : string) (st : State)
| OutOfFuel.

(** How a step of the layout ends: normally, with a value, or by a throw,
    which leaves the state [st] behind. *)
Inductive Result (A : Type) : Type :=
| Ok (a : A)
| Raised (msg : string) (st : State).
Arguments Ok {A} a.
Arguments Raised {A} msg st.

(** The state a step leaves behind, however it ends. *)
Definition reached (r : Result State) : State :=
  match r with
  | Ok st => st
  | Raised _ st => st
  end.

(** The code that [generate] calls and that is not embedded here:
    [molecule.getRings] (model/molecule.js), the ring partitioner
    (ring/partitioner.js), the atom placer (layout/atom_placer.js), the
    overlap resolver (layout/overlap_resolver.js), [vector.sub]
    (math/vector2d.js) and the configured bond length (layout/config.js) are
    not part of src; [ringSet], [placeRingSubstituents] and the body of
    [layoutNextRingSystem] are floating-point geometry built on them.  Each
    is a step on the state, or a value read from it.  [getNextBondVector]
    is the one that [handleAliphatics] may hand [undefined]
    ([placedAtoms.getAtom(0)] of a list without atoms, here [None]); what it
    does then is not in src, so it may throw. *)
Class Collaborators := {
  bondLength : float;
  getRings : State -> list RingRing;
  GetPartitionedRings : list RingRing -> list (list RingRef);
  ringSet : MathVector2D -> list RingRef -> State -> State;
  placeRingSubstituents : list RingRef -> float -> State -> State;
  getInitialLongestChain : State -> list AtomRef;
  getLongestUnplacedChain : State -> AtomRef -> list AtomRef;
  (** [get2DCenter(atoms)]: the centre of a list of atoms *)
  get2DCenter : list AtomRef -> State -> MathCoordinate;
  (** [distributePartners(atom, placedAtoms, center, unplacedAtoms, bondLength)] *)
  distributePartners :
    AtomRef -> list AtomRef -> MathCoordinate -> list AtomRef -> float -> State -> State;
  (** [getNextBondVector(atom, previousAtom, distanceMeasure, trans)] *)
  getNextBondVector :
    AtomRef -> option AtomRef -> MathCoordinate -> bool -> State -> Completion MathVector2D;
  (** [direction.sub(startVector)]: [direction] afterwards *)
  vectorSub : MathVector2D -> MathVector2D -> MathVector2D;
  placeLinearChain : list AtomRef -> MathVector2D -> float -> State -> State;
  (** lines 786-839 of [layoutNextRingSystem] *)
  placeNextRingSystem :
    MathVector2D -> ModelBond -> list AtomRef -> list (list RingRef) -> State -> State;
  resolveOverlap : State -> State
}.

Definition not_connected : string := "Molecule not connected.".
Definition type_error : string := "TypeError".

Definition origin : MathCoordinate := {| x := 0%float; y := 0%float |}.

(** [arr.forEach(callback)] on the state *)
Definition forEach {A} (arr : list A) (callback : A -> State -> State) (st : State)
  : State :=
  foldl (fun st a => callback a st) st arr.

(** Lines 44-50: every flag of every atom is set to [false]. *)
Definition resetAtom (atom : ModelAtom) : ModelAtom :=
  setFlag ISALIPHATIC false
    (setFlag ISINRING false (setFlag VISITED false (setFlag ISPLACED false atom))).

Definition resetFlags (st : State) : State :=
  let atCount := countAtoms (molecule st) in
  forEach (seq 0 atCount) (fun f => updateAtom f resetAtom) st.

(** Line 57: [molecule.getAtom(0).coords = new MathCoordinate(0, 0)] *)
Definition writeCoords (c : MathCoordinate) (atom : ModelAtom) : ModelAtom :=
  {| coord := coord atom; coords := Some c; flags := flags atom |}.

(** [atom.coord = c] *)
Definition writeCoord (c : MathCoordinate) (atom : ModelAtom) : ModelAtom :=
  {| coord := Some c; coords := coords atom; flags := flags atom |}.

(** Lines 77-79.  The body of the outer callback is the comma expression
    [ring.atoms.forEach, function(atom) {...}]: the method is read, the
    function is built, and neither is called. *)
Definition flagAtomInRing (atom : AtomRef) (st : State) : State :=
  updateAtom atom (setFlag ISINRING true) st.

Definition flagRingAtoms (ring : RingRing) (st : State) : State :=
  let method := forEach (Ring.atoms ring) in
  let callback := flagAtomInRing in
  st.

Definition flagSssr (st : State) : State := forEach (sssr st) flagRingAtoms st.

(** Modelled from the spec: utils/array.js is missing.  [ringsets.sort] with
    [defaultCompare] on the lengths orders the partitions by their number of
    rings, and [last] takes the final one: 'pick the partition with the most
    rings as the "largest"'. *)
Fixpoint insertByLength {A} (s : list A) (sorted : list (list A)) : list (list A) :=
  match sorted with
  | [] => [s]
  | t :: rest =>
      if length s <? length t then s :: t :: rest else t :: insertByLength s rest
  end.

Definition sortByLength {A} (ringsets : list (list A)) : list (list A) :=
  foldl (fun sorted s => insertByLength s sorted) [] ringsets.

(** The order of [defaultCompare] on the lengths. *)
Definition shorterOrEqual {A} (s t : list A) : Prop := length s <= length t.

Definition markRingPlaced (ring : RingRef) (st : State) : State :=
  updateRing ring (fun r => {| Ring.atoms := Ring.atoms r; Ring.bonds := Ring.bonds r;
                               Ring.flags := Ring.flags r; Ring.isPlaced := true;
                               Ring._center := Ring._center r |}) st.

(** [getMostComplexRing(ringSet)]: [ringSet] holds ring objects, here their
    handles into [store]. *)
Definition lookupRing (store : list RingRing) (ringSet : list RingRef) (i : nat)
  : option (RingRef * RingRing) :=
  r ← ringSet !! i; ring ← store !! r; Some (r, ring).

(** [neighbors[i]++] *)
Definition increment (i : nat) (neighbors : list nat) : list nat := alter S i neighbors.

(** Lines 261-268: the loop over [l] stops at the first [atom2] with
    [atom1 === atom2]. *)
Definition matchesSomeElement (atom1 : option AtomRef) (ring2 : RingRing) : bool :=
  existsb (fun l => strict_eq atom1 (ringElement ring2 l))
    (seq 0 (length (Ring.atoms ring2))).

(** Lines 258-270, for one [i] and one [j]. *)
Definition countForElement (store : list RingRing) (ringSet : list RingRef)
  (i : nat) (r1 : RingRef) (ring1 : RingRing) (j : nat) (neighbors : list nat)
  : list nat :=
  let atom1 := ringElement ring1 j in
  foldl (fun neighbors k =>
           match lookupRing store ringSet k with
           | Some (r2, ring2) =>
               if decide (r1 <> r2) then
                 if matchesSomeElement atom1 ring2
                 then increment k (increment i neighbors)
                 else neighbors
               else neighbors
           | None => neighbors
           end) neighbors (seq (i + 1) (length ringSet - (i + 1))).

(** Lines 254-272. *)
Definition countNeighbors (store : list RingRing) (ringSet : list RingRef) : list nat :=
  foldl (fun neighbors i =>
           match lookupRing store ringSet i with
           | Some (r1, ring1) =>
               foldl (fun neighbors j => countForElement store ringSet i r1 ring1 j neighbors)
                 neighbors (seq 0 (length (Ring.atoms ring1)))
           | None => neighbors
           end) (replicate (length ringSet) 0) (seq 0 (length ringSet)).

(** Lines 273-278: the first position holding the greatest count. *)
Definition mostComplexPosition (neighbors : list nat) : nat :=
  snd (foldl (fun '(mostComplex, position) i =>
                match neighbors !! i with
                | Some c => if mostComplex <? c then (c, i) else (mostComplex, position)
                | None => (mostComplex, position)
                end) (0, 0) (seq 0 (length neighbors))).

Definition getMostComplexRing (store : list RingRing) (ringSet : list RingRef)
  : option RingRef :=
  ringSet !! mostComplexPosition (countNeighbors store ringSet).

(** *** The seed ring in the words of the specification *)

(** Two rings share at least one atom. *)
Definition shareAtom (ring1 ring2 : RingRing) : bool :=
  existsb (fun atom => bool_decide (atom ∈ Ring.atoms ring2)) (Ring.atoms ring1).

(** The number of other rings of the set that share an atom with the ring at
    position [i]. *)
Definition sharingRings (store : list RingRing) (ringSet : list RingRef) (i : nat) : nat :=
  length (List.filter
            (fun k =>
               negb (k =? i) &&
               match lookupRing store ringSet i, lookupRing store ringSet k with
               | Some (_, ring1), Some (_, ring2) => shareAtom ring1 ring2
               | _, _ => false
               end) (seq 0 (length ringSet))).

(** The ring sharing atoms with the greatest number of other rings, the
    first such ring in input order. *)
Definition mostConnectedRing (store : list RingRing) (ringSet : list RingRef)
  : option RingRef :=
  ringSet !! mostComplexPosition
               (map (sharingRings store ringSet) (seq 0 (length ringSet))).

(** Lines 176-185 of [getNextAtomWithAliphaticUnplacedNeigbors]: the loop
    at [bc], with [steps] more passes to go.  The first bond with exactly one
    placed end gives that end.  [molecule.getBond(bc)] past the last bond is
    [undefined], and reading its [source] throws a [TypeError]. *)
Fixpoint firstBoundaryAtom (st : State) (bc steps : nat) : Completion (option AtomRef) :=
  match steps with
  | 0 => Normal None
  | S steps =>
      match bonds (molecule st) !! bc with
      | None => Throw type_error
      | Some bond =>
          if atomFlag st (source bond) ISPLACED && negb (atomFlag st (target bond) ISPLACED)
          then Normal (Some (source bond))
          else if negb (atomFlag st (source bond) ISPLACED)
                  && atomFlag st (target bond) ISPLACED
          then Normal (Some (target bond))
          else firstBoundaryAtom st (S bc) steps
      end
  end.

(** The bonds [molecule.getBond(0)], ..., [molecule.getBond(bondCount - 1)]
    are tried in this order; [Normal None] is [null]. *)
Definition getNextAtomWithAliphaticUnplacedNeigbors (st : State) (bondCount : nat)
  : Completion (option AtomRef) :=
  firstBoundaryAtom st 0 bondCount.

(** Modelled from the spec: model/molecule.js is missing;
    [getConnectedBondsList] is the adjacency query 'bonds incident to an
    atom'. *)
Definition getConnectedBondsList (m : ModelMolecule) (atom : AtomRef) : list ModelBond :=
  filter (fun bond => source bond = atom \/ target bond = atom) (bonds m).

(** [getAtoms]: the neighbours of [atom] that are placed ([placed] true) or
    not placed ([placed] false). *)
Definition getAtoms (atom : AtomRef) (st : State) (bondCount : nat) (placed : bool)
  : list AtomRef :=
  foldl (fun atoms bond =>
           match otherAtom bond atom with
           | Some connectedAtom =>
               if placed && atomFlag st connectedAtom ISPLACED
               then atoms ++ [connectedAtom]
               else if negb placed && negb (atomFlag st connectedAtom ISPLACED)
               then atoms ++ [connectedAtom]
               else atoms
           | None => atoms
           end) [] (getConnectedBondsList (molecule st) atom).

(** [atom.coord] read through a handle, for [atom.coord.x] and
    [atom.coord.y]: [None] where the atom has no coordinate, and reading [x]
    throws a [TypeError]. *)
Definition coordOf (st : State) (atom : AtomRef) : option MathCoordinate :=
  atoms (molecule st) !! atom ≫= coord.

(** Lines 222-233 of [handleAliphatics]: the direction in which the chain
    is placed.  With more than one placed neighbour the partners are
    distributed and the direction runs from [at] to the second atom of the
    chain (the chain has more than one atom here); both coordinates are
    read, and a missing one throws.  Otherwise the placer is asked, with the
    first placed neighbour, which is [undefined] when there is none. *)
Definition chainDirection `{Collaborators} (at_ : AtomRef)
  (placedAtoms unplacedAtoms longestUnplacedChain : list AtomRef) (st : State)
  : Result (State * MathVector2D) :=
  if 1 <? length placedAtoms then
    let st :=
      distributePartners at_ placedAtoms (get2DCenter placedAtoms st) unplacedAtoms
        bondLength st in
    match longestUnplacedChain !! 1 ≫= coordOf st with
    | None => Raised type_error st
    | Some c1 =>
        let direction := {| Vector2D.x := x c1; Vector2D.y := y c1 |} in
        match coordOf st at_ with
        | None => Raised type_error st
        | Some c =>
            let startVector := {| Vector2D.x := x c; Vector2D.y := y c |} in
            Ok (st, vectorSub direction startVector)
        end
    end
  else
    match getNextBondVector at_ (placedAtoms !! 0)
            (get2DCenter (seq 0 (countAtoms (molecule st))) st) true st with
    | Normal direction => Ok (st, direction)
    | Throw msg => Raised msg st
    end.

(** One pass of the [do] body of [handleAliphatics]; the boolean is [done]. *)
Definition handleAliphaticsStep `{Collaborators} (bondCount : nat) (st : State)
  : Result (State * bool) :=
  match getNextAtomWithAliphaticUnplacedNeigbors st bondCount with
  | Throw msg => Raised msg st
  | Normal None => Ok (st, true)
  | Normal (Some at_) =>
      let unplacedAtoms := getAtoms at_ st bondCount false in
      let placedAtoms := getAtoms at_ st bondCount true in
      let longestUnplacedChain := getLongestUnplacedChain st at_ in
      if 1 <? length longestUnplacedChain then
        match chainDirection at_ placedAtoms unplacedAtoms longestUnplacedChain st with
        | Raised msg st => Raised msg st
        | Ok (st, direction) =>
            let st :=
              forEach (seq 1 (length longestUnplacedChain - 1))
                (fun z st => match longestUnplacedChain !! z with
                             | Some atom => updateAtom atom (setFlag ISPLACED false) st
                             | None => st
                             end) st in
            Ok (placeLinearChain longestUnplacedChain direction bondLength st, false)
        end
      else Ok (st, true)
  end.

(** [do { cntr++; ... } while (!done && cntr <= molecule.countAtoms())];
    a throw in a pass ends the loop. *)
Fixpoint handleAliphaticsLoop `{Collaborators} (fuel bondCount cntr : nat) (st : State)
  : option (Result State) :=
  match fuel with
  | 0 => None
  | S fuel =>
      let cntr := S cntr in
      match handleAliphaticsStep bondCount st with
      | Raised msg st => Some (Raised msg st)
      | Ok (st, done) =>
          if negb done && (cntr <=? countAtoms (molecule st))
          then handleAliphaticsLoop fuel bondCount cntr st
          else Some (Ok st)
      end
  end.

Definition handleAliphatics `{Collaborators} (fuel : nat) (st : State) (bondCount : nat)
  : option (Result State) :=
  handleAliphaticsLoop fuel bondCount 0 st.

(** [resetUnplacedRingAtoms]: the atoms of every ring whose [isPlaced] is not
    set are flagged as not placed. *)
Definition resetUnplacedRingAtoms (ringset : list RingRing) (st : State) : State :=
  forEach ringset
    (fun ring st =>
       if negb (Ring.isPlaced ring)
       then forEach (Ring.atoms ring) (fun atom => updateAtom atom (setFlag ISPLACED false)) st
       else st) st.

(** [findNextRingBondWithUnplacedRingAtom]: an arrow function with a block
    body and no [return]: [bonds.find] is evaluated (its callback, a block
    without [return] as well, answers [undefined] for every bond) and the
    result is dropped, so the call yields [undefined]. *)
Definition findNextRingBondWithUnplacedRingAtom (st : State) (bonds : list ModelBond)
  : option ModelBond :=
  let found := List.find (fun bond => false) bonds in
  None.

Definition layoutNextRingSystem `{Collaborators}
  (firstBondVector : MathVector2D) (st : State) (ringsets : list (list RingRef)) : State :=
  let st := resetUnplacedRingAtoms (sssr st) st in
  let placedAtoms :=
    filter (fun atom => atomFlag st atom ISPLACED = true)
      (seq 0 (length (atoms (molecule st)))) in
  match findNextRingBondWithUnplacedRingAtom st (bonds (molecule st)) with
  | Some nextBond => placeNextRingSystem firstBondVector nextBond placedAtoms ringsets st
  | None => st
  end.

(** Modelled from the spec: [layoutAtomPlacer.allPlaced] of
    layout/atom_placer.js is missing; the loop runs 'until all atoms are
    placed'. *)
Definition allPlaced (st : State) (atCount : nat) : bool :=
  forallb (fun f => atomFlag st f ISPLACED) (seq 0 atCount).

(** One pass of the body of the alternation loop (lines 109-123); a throw
    of [handleAliphatics] ends the pass. *)
Definition alternateStep `{Collaborators} (fuel nrOfEdges : nat)
  (firstBondVector : MathVector2D) (ringsets : list (list RingRef)) (st : State)
  : option (Result State) :=
  match handleAliphatics fuel st nrOfEdges with
  | None => None
  | Some (Raised msg st) => Some (Raised msg st)
  | Some (Ok st) => Some (Ok (layoutNextRingSystem firstBondVector st ringsets))
  end.

(** Lines 107-126:
    [do { safetyCounter++; ... } while (!allPlaced(molecule, atCount) &&
    safetyCounter <= molecule.countAtoms())].
    The result holds the final value of [safetyCounter]; a throw in a pass
    ends the loop. *)
Fixpoint alternate `{Collaborators} (gas fuel nrOfEdges atCount : nat)
  (firstBondVector : MathVector2D) (ringsets : list (list RingRef))
  (safetyCounter : nat) (st : State) : option (Result (nat * State)) :=
  match gas with
  | 0 => None
  | S gas =>
      let safetyCounter := S safetyCounter in
      match alternateStep fuel nrOfEdges firstBondVector ringsets st with
      | None => None
      | Some (Raised msg st) => Some (Raised msg st)
      | Some (Ok st) =>
          if negb (allPlaced st atCount) && (safetyCounter <=? countAtoms (molecule st))
          then alternate gas fuel nrOfEdges atCount firstBondVector ringsets safetyCounter st
          else Some (Ok (safetyCounter, st))
      end
  end.


(** The placer works on the atoms of the molecule: it adds none and removes
    none. *)
Definition KeepsAtomCount `{Collaborators} : Prop :=
  (forall atom placedAtoms center unplacedAtoms length st,
      countAtoms (molecule (distributePartners atom placedAtoms center unplacedAtoms length st))
      = countAtoms (molecule st)) /\
  (forall chain direction length st,
      countAtoms (molecule (placeLinearChain chain direction length st))
      = countAtoms (molecule st)).

(** Lines 75-91.  [inr st]: a [TypeError] is thrown in state [st]
    ([utilsArray.last] of an empty array is [undefined], and [ringSet] reads
    its [length]).  [sort] works in place, so the ring sets are handed on in
    sorted order. *)
Definition seedRings `{Collaborators} (firstBondVector : MathVector2D)
  (ringsets : list (list RingRef)) (st : State)
  : list (list RingRef) * State + State :=
  let st := flagSssr st in
  let ringsets := sortByLength ringsets in
  match last ringsets with
  | None => inr st
  | Some largestRingset =>
      let st := ringSet firstBondVector largestRingset st in
      let st := placeRingSubstituents largestRingset bondLength st in
      inl (ringsets, forEach largestRingset markRingPlaced st)
  end.

(** Lines 92-104.  [inr st]: the chain has no atom and
    [longestChain.getAtom(0).coord = ...] throws a [TypeError]. *)
Definition seedChain `{Collaborators} (firstBondVector : MathVector2D)
  (ringsets : list (list RingRef)) (st : State)
  : list (list RingRef) * State + State :=
  let longestChain := getInitialLongestChain st in
  match longestChain !! 0 with
  | None => inr st
  | Some first =>
      let st := updateAtom first (writeCoord origin) st in
      let st := updateAtom first (setFlag ISPLACED true) st in
      inl (ringsets, placeLinearChain longestChain firstBondVector bondLength st)
  end.

(** [layoutCoordinateGenerator.generate(molecule)] *)
Definition generate `{Collaborators} (fuel : nat) (st : State) : Outcome :=
  let firstBondVector := {| Vector2D.x := 0%float; Vector2D.y := 1%float |} in
  let atCount := countAtoms (molecule st) in
  let st := resetFlags st in
  if decide (atCount = 1) then Returned (updateAtom 0 (writeCoords origin) st)
  else if decide (1 < fragmentCount (molecule st)) then Thrown not_connected st
  else
    let nrOfEdges := countBonds (molecule st) in
    let expectedRingCount :=
      (Z.of_nat nrOfEdges - Z.of_nat (countAtoms (molecule st)) + 1)%Z in
    let st := {| molecule := molecule st; sssr := getRings st |} in
    let ringsets := GetPartitionedRings (sssr st) in
    let seeded :=
      if decide (0 < expectedRingCount)%Z
      then seedRings firstBondVector ringsets st
      else seedChain firstBondVector ringsets st in
    match seeded with
    | inr st => Thrown type_error st
    | inl (ringsets, st) =>
        match alternate fuel fuel nrOfEdges atCount firstBondVector ringsets 0 st with
        | None => OutOfFuel
        | Some (Ok (_, st)) => Returned (resolveOverlap st)
        | Some (Raised msg st) => Thrown msg st
        end
    end.

End CoordinateGenerator.

(** ** Sample molecules and a simple placer, for evaluating the code *)

Module Samples.
Import JS Model CoordinateGenerator.

Definition newAtom : ModelAtom := {| coord := None; coords := None; flags := noFlags |}.

Definition newBond (source target : AtomRef) : ModelBond :=
  {| source := source; target := target; order := SINGLE; stereo := NOT_STEREO;
     aromatic := false |}.

Definition newRing (atoms : list AtomRef) (bonds : list BondRef) : RingRing :=
  {| Ring.atoms := atoms; Ring.bonds := bonds; Ring.flags := noFlags;
     Ring.isPlaced := false; Ring._center := None |}.

(** A molecule as the parser hands it over: no coordinates, no ring objects. *)
Definition parsed (atCount : nat) (bonds : list ModelBond) (fragmentCount : nat) : State :=
  {| molecule := {| atoms := replicate atCount newAtom; bonds := bonds;
                    fragmentCount := fragmentCount |};
     sssr := [] |}.

(** A molecule of the single atom [atom]. *)
Definition loneAtom (atom : ModelAtom) : State :=
  {| molecule := {| atoms := [atom]; bonds := []; fragmentCount := 1 |};
     sssr := [] |}.

(** Two atoms without a bond: two fragments. *)
Definition twoFragments : State := parsed 2 [] 2.

(** Propane: a chain of three atoms. *)
Definition propane : State := parsed 3 [newBond 0 1; newBond 1 2] 1.

(** Cyclopropane with its ring object. *)
Definition cyclopropane : State :=
  {| molecule := {| atoms := replicate 3 newAtom;
                    bonds := [newBond 0 1; newBond 1 2; newBond 2 0];
                    fragmentCount := 1 |};
     sssr := [newRing [0; 1; 2] [0; 1; 2]] |}.

(** The three rings of anthracene in the order left, middle, right: the
    middle ring shares a bond with each of the other two. *)
Definition anthracene : list RingRing :=
  [newRing [0; 1; 2; 3; 4; 5] []; newRing [4; 5; 6; 7; 8; 9] [];
   newRing [8; 9; 10; 11; 12; 13] []].

(** A placer that flags atoms as placed and computes no geometry. *)
Definition flagPlaced (atoms : list AtomRef) (st : State) : State :=
  forEach atoms (fun atom => updateAtom atom (setFlag ISPLACED true)) st.

Definition flaggingPlacer : Collaborators := {|
  bondLength := 1%float;
  getRings := sssr;
  GetPartitionedRings := fun rings => [seq 0 (length rings)];
  ringSet := fun _ ringset st =>
    forEach ringset (fun r st => match sssr st !! r with
                                 | Some ring => flagPlaced (Ring.atoms ring) st
                                 | None => st
                                 end) st;
  placeRingSubstituents := fun _ _ st => st;
  getInitialLongestChain := fun st => seq 0 (min 1 (countAtoms (molecule st)));
  getLongestUnplacedChain := fun st atom =>
    atom :: take 1 (getAtoms atom st (countBonds (molecule st)) false);
  get2DCenter := fun _ _ => origin;
  distributePartners := fun _ _ _ _ _ st => st;
  getNextBondVector := fun _ _ _ _ _ =>
    Normal {| Vector2D.x := 0%float; Vector2D.y := 1%float |};
  vectorSub := fun direction _ => direction;
  placeLinearChain := fun chain _ _ st => flagPlaced chain st;
  placeNextRingSystem := fun _ _ _ _ st => st;
  resolveOverlap := fun st => st
|}.

End Samples.

(** ** Words for walks, used to describe [splice] and [isRealPath] *)

Module Walks.
Import PathEdge.

(** The atoms of a walk that stand neither first nor last. *)
Definition interior (l : list AtomRef) : list AtomRef :=
  take (length l - 2) (drop 1 l).

(** The same walk, walked backwards. *)
Definition reversed (e : RingPathEdge) : RingPathEdge :=
  {| atoms := reverse (atoms e) |}.

End Walks.

(** ** src/ring/ring.js: the cached centre of a ring *)

Module RingCenter.
Import JS Model.

(** [this.atoms.length] as a number. *)
Definition lengthNumber {A} (arr : list A) : float :=
  PrimFloat.of_uint63 (Uint63.of_Z (Z.of_nat (length arr))).

(** The loop of [getCenter]: the sums of the [x] and of the [y] of the atoms;
    reading [coord.x] of an atom without coordinate throws a [TypeError]. *)
Fixpoint sumCoords (atoms : list ModelAtom) (ring : list AtomRef) (avgX avgY : float)
  : Completion (float * float) :=
  match ring with
  | [] => Normal (avgX, avgY)
  | atom :: rest =>
      match atoms !! atom ≫= coord with
      | Some c => sumCoords atoms rest (avgX + x c)%float (avgY + y c)%float
      | None => Throw "TypeError"
      end
  end.

(** [ring.getCenter()]: the centre and the ring object after the call. *)
Definition getCenter (atoms : list ModelAtom) (this : RingRing)
  : Completion (MathCoordinate * RingRing) :=
  match Ring._center this with
  | Some center => Normal (center, this)
  | None =>
      sums ← sumCoords atoms (Ring.atoms this) 0%float 0%float;
      let center := {| x := (sums.1 / lengthNumber (Ring.atoms this))%float;
                       y := (sums.2 / lengthNumber (Ring.atoms this))%float |} in
      Normal (center, {| Ring.atoms := Ring.atoms this; Ring.bonds := Ring.bonds this;
                         Ring.flags := Ring.flags this;
                         Ring.isPlaced := Ring.isPlaced this;
                         Ring._center := Some center |})
  end.

(** [ring.resetRingCenter()] *)
Definition resetRingCenter (this : RingRing) : RingRing :=
  {| Ring.atoms := Ring.atoms this; Ring.bonds := Ring.bonds this;
     Ring.flags := Ring.flags this; Ring.isPlaced := Ring.isPlaced this;
     Ring._center := None |}.

End RingCenter.

(** ** src/layout/coordinate_generator.js: walks along the bonds of a ring *)

Module RingPlacer.
Import JS Model CoordinateGenerator.

(** [bond.otherAtom(atom)] for an [atom] that may be [null]. *)
Definition otherAtomOf (bond : ModelBond) (atom : option AtomRef) : option AtomRef :=
  atom ≫= otherAtom bond.

(** [getNextBond(ring, bond, atom)]: the first bond of the ring that is not
    [bond] and has [atom] at one end; [None] is [null]. *)
Definition getNextBond (m : ModelMolecule) (ring : RingRing)
  (bond : option BondRef) (atom : option AtomRef) : option BondRef :=
  List.find (fun b =>
               negb (strict_eq (Some b) bond) &&
               match bonds m !! b with
               | Some bd => strict_eq (Some (source bd)) atom
                            || strict_eq (Some (target bd)) atom
               | None => false
               end) (Ring.bonds ring).

(** Lines 615-623 of [placeFusedRing]: the loop that collects [atomsToDraw],
    run for [steps] more passes.  Calling [otherAtom] on the [null] that
    [getNextBond] may answer throws a [TypeError]. *)
Fixpoint collectAtomsToDraw (m : ModelMolecule) (ring : RingRing) (steps : nat)
  (currentBond : option BondRef) (currentAtom : option AtomRef)
  (atomsToDraw : list (option AtomRef)) : Completion (list (option AtomRef)) :=
  match steps with
  | 0 => Normal atomsToDraw
  | S steps =>
      match getNextBond m ring currentBond currentAtom ≫= (fun b => (b,.) <$> bonds m !! b) with
      | Some (b, bd) =>
          let currentAtom := otherAtomOf bd currentAtom in
          collectAtomsToDraw m ring steps (Some b) currentAtom (atomsToDraw ++ [currentAtom])
      | None => Throw type_error
      end
  end.

(** [atomsToDraw] of [placeFusedRing] for the start atom and the shared bond. *)
Definition atomsToDraw (m : ModelMolecule) (ring : RingRing)
  (sharedBond : option BondRef) (startAtom : option AtomRef)
  : Completion (list (option AtomRef)) :=
  collectAtomsToDraw m ring (Z.to_nat (len (Ring.bonds ring) - 2)) sharedBond startAtom [].

(** [atomsInPlacementOrder(atom, bond, bonds)].  [bonds.find] takes the first
    bond with [atom] at one end ([otherAtom] answers an atom, which is
    truthy); without one, [nextBond] is [undefined] and reading its
    [otherAtom] throws.  [None]: out of fuel. *)
Fixpoint atomsInPlacementOrder (fuel : nat) (m : ModelMolecule)
  (atom : AtomRef) (bond : option BondRef) (bonds : list BondRef)
  : option (Completion (list AtomRef)) :=
  match fuel with
  | 0 => None
  | S fuel =>
      let nextBond :=
        List.find (fun b => match Model.bonds m !! b with
                            | Some bd => bool_decide (is_Some (otherAtom bd atom))
                            | None => false
                            end) bonds in
      let remainingBonds :=
        List.filter (fun b => negb (strict_eq (Some b) nextBond)) bonds in
      if 0 <? length remainingBonds then
        match nextBond ≫= (fun b => Model.bonds m !! b ≫= (fun bd => otherAtom bd atom)) with
        | Some nextAtom =>
            match atomsInPlacementOrder fuel m nextAtom nextBond remainingBonds with
            | Some (Normal rest) => Some (Normal (nextAtom :: rest))
            | other => other
            end
        | None => Some (Throw type_error)
        end
      else Some (Normal [])
  end.

(** [getIntersectingAtoms(ring1, ring2)] and [getIntersectingBonds(ring1, ring2)] *)
Definition getIntersectingAtoms (ring1 ring2 : RingRing) : list AtomRef :=
  List.filter (fun atom => bool_decide (atom ∈ Ring.atoms ring1)) (Ring.atoms ring2).

Definition getIntersectingBonds (ring1 ring2 : RingRing) : list BondRef :=
  List.filter (fun bond => bool_decide (bond ∈ Ring.bonds ring1)) (Ring.bonds ring2).

(** *** Words for rings *)

(** Bond [b] of the molecule joins the atoms [u] and [v]. *)
Definition joins (m : ModelMolecule) (b : BondRef) (u v : AtomRef) : Prop :=
  exists bd, bonds m !! b = Some bd /\
             ((source bd = u /\ target bd = v) \/ (source bd = v /\ target bd = u)).

(** Bond [b] of the molecule has the atom [a] at one end. *)
Definition touches (m : ModelMolecule) (b : BondRef) (a : AtomRef) : Prop :=
  exists bd, bonds m !! b = Some bd /\ (source bd = a \/ target bd = a).

(** The position after [i] on a cycle of [n] atoms. *)
Definition after (n i : nat) : nat := if S i <? n then S i else 0.

(** [cycle] lists the atoms of a simple ring in ring order and [links] its
    bonds: [links[i]] joins [cycle[i]] and the atom after it, the last bond
    closes the ring; no atom and no bond occurs twice. *)
Definition SimpleRing (m : ModelMolecule) (cycle : list AtomRef) (links : list BondRef)
  : Prop :=
  3 <= length cycle /\ length links = length cycle /\
  NoDup cycle /\ NoDup links /\
  forall i b, links !! i = Some b ->
    exists u v, cycle !! i = Some u /\ cycle !! after (length cycle) i = Some v /\
                joins m b u v.

End RingPlacer.

(** ** A sample ring, for evaluating the walks *)

Module RingSamples.
Import JS Model CoordinateGenerator Samples.

(** Benzene: six atoms; bond [i] joins atom [i] and the next one, some bonds
    written from the higher to the lower atom; the ring object lists the
    bonds in another order. *)
Definition benzene : ModelMolecule :=
  {| atoms := replicate 6 newAtom;
     bonds := [newBond 0 1; newBond 2 1; newBond 2 3; newBond 4 3; newBond 4 5;
               newBond 0 5];
     fragmentCount := 1 |}.

Definition benzeneRing : RingRing := newRing [0; 1; 2; 3; 4; 5] [3; 0; 5; 1; 4; 2].

End RingSamples.

(** ** src/layout/coordinate_generator.js: [placeFirstBond], and words for
    the state of a layout *)

Module FirstBond.
Import JS Model CoordinateGenerator.

(** [vector.normalize()] and [vector.scale(s)] of src/math/vector2d.js, which
    is not part of src: both change the vector they are called on. *)
Class VectorOps := {
  normalize : MathVector2D -> MathVector2D;
  scale : float -> MathVector2D -> MathVector2D
}.

(** [placeFirstBond(bond, vector)]: the atoms it returns, the vector as the
    call leaves it, and the state. *)
Definition placeFirstBond `{Collaborators} `{VectorOps}
  (bond : ModelBond) (vector : MathVector2D) (st : State)
  : list AtomRef * MathVector2D * State :=
  let vector := normalize vector in
  let vector := scale bondLength vector in
  let st := updateAtom (source bond) (writeCoord origin) st in
  let st := updateAtom (source bond) (setFlag ISPLACED true) st in
  let st := updateAtom (target bond)
              (writeCoord {| x := Vector2D.x vector; y := Vector2D.y vector |}) st in
  let st := updateAtom (target bond) (setFlag ISPLACED true) st in
  ([source bond; target bond], vector, st).

(** Atom [i] belongs to a ring of [ringset] whose [isPlaced] is not set. *)
Definition inUnplacedRing (ringset : list RingRing) (i : AtomRef) : bool :=
  existsb (fun ring => negb (Ring.isPlaced ring) && bool_decide (i ∈ Ring.atoms ring))
    ringset.

(** A bond with exactly one placed end. *)
Definition onBoundary (st : State) (bond : ModelBond) : Prop :=
  atomFlag st (source bond) ISPLACED <> atomFlag st (target bond) ISPLACED.

End FirstBond.

(** ** Facts about the JavaScript loops *)

Module JSFacts.
Import JS.

Lemma index_nat {A} (arr : list A) (i : nat) : index arr (Z.of_nat i) = arr !! i.
Proof.
  unfold index. destruct (decide (Z.of_nat i < 0)%Z) as [Hneg|_]; [lia|].
  by rewrite Nat2Z.id.
Qed.

Lemma index_0 {A} (arr : list A) : index arr 0 = head arr.
Proof. by destruct arr. Qed.

Lemma index_last {A} (arr : list A) : index arr (len arr - 1) = last arr.
Proof.
  unfold index, len. destruct (decide (Z.of_nat (length arr) - 1 < 0)%Z) as [Hneg|Hpos].
  - destruct arr; [done | simpl in Hneg; lia].
  - rewrite last_lookup. f_equal. lia.
Qed.

Lemma strict_eq_true {A} `{EqDecision A} (a b : option A) : strict_eq a b = true <-> a = b.
Proof. unfold strict_eq. apply bool_decide_eq_true. Qed.

Lemma strict_eq_false {A} `{EqDecision A} (a b : option A) : strict_eq a b = false <-> a <> b.
Proof. unfold strict_eq. apply bool_decide_eq_false. Qed.

Lemma push_up_spec {A} (arr : list A) (n lo : nat) (acc : list A) :
  lo + n <= length arr ->
  push_up arr lo (lo + n) acc = acc ++ take n (drop lo arr).
Proof.
  unfold push_up. replace (lo + n - lo) with n by lia.
  revert lo acc. induction n as [|n IH]; intros lo acc Hle; simpl.
  - by rewrite app_nil_r.
  - destruct (lookup_lt_is_Some_2 arr lo) as [a Ha]; [lia|].
    rewrite Ha, IH by lia.
    rewrite (drop_S _ _ _ Ha). simpl. by rewrite <- app_assoc.
Qed.

Lemma push_up_all {A} (arr : list A) : push_up arr 0 (length arr) [] = arr.
Proof.
  pose proof (push_up_spec arr (length arr) 0 []) as H.
  simpl in H. rewrite H by lia. rewrite drop_0. apply firstn_all.
Qed.

Lemma push_up_tail {A} (arr acc : list A) :
  push_up arr 1 (length arr) acc = acc ++ tail arr.
Proof.
  destruct arr as [|a arr]; [by unfold push_up; simpl; rewrite app_nil_r|].
  pose proof (push_up_spec (a :: arr) (length arr) 1 acc) as H.
  simpl in H. simpl. rewrite H by lia. by rewrite drop_0, firstn_all.
Qed.

Lemma push_down_spec {A} (arr : list A) (n : nat) (acc : list A) :
  n <= length arr ->
  push_down arr (Z.of_nat n - 1) acc = acc ++ reverse (take n arr).
Proof.
  unfold push_down. replace (Z.to_nat (Z.of_nat n - 1 + 1)) with n by lia.
  revert acc. induction n as [|n IH]; intros acc Hle.
  - simpl. by rewrite app_nil_r.
  - rewrite seq_S, reverse_app. simpl.
    destruct (lookup_lt_is_Some_2 arr n) as [a Ha]; [lia|].
    rewrite Ha, IH by lia.
    rewrite (take_S_r _ _ _ Ha), reverse_app. simpl. by rewrite <- app_assoc.
Qed.

Lemma tail_reverse {A} (arr : list A) : tail (reverse arr) = reverse (take (length arr - 1) arr).
Proof.
  destruct arr as [|a arr] using rev_ind; [done|].
  rewrite reverse_app, length_app. simpl.
  replace (length arr + 1 - 1) with (length arr) by lia.
  by rewrite take_app_length.
Qed.

Lemma push_down_tail_reverse {A} (arr acc : list A) :
  push_down arr (len arr - 2) acc = acc ++ tail (reverse arr).
Proof.
  rewrite tail_reverse. unfold len.
  destruct arr as [|a arr]; [by unfold push_down; simpl; rewrite app_nil_r|].
  replace (Z.of_nat (length (a :: arr)) - 2)%Z
    with (Z.of_nat (length (a :: arr) - 1) - 1)%Z by (simpl; lia).
  apply push_down_spec. simpl. lia.
Qed.

End JSFacts.

(** ** Ring path edges: what [splice] builds and when it fails *)

Module PathEdgeFacts.
Import JS JSFacts PathEdge.

Lemma interior_range (l : list AtomRef) (i : nat) :
  In i (seq 1 (Z.to_nat (len l - 1 - 1))) <-> 0 < i /\ i < length l - 1.
Proof. rewrite in_seq. unfold len. lia. Qed.

Lemma isRealPath_true (l : list AtomRef) :
  isRealPath l = true <->
  forall i j, 0 < i < length l - 1 -> 0 < j < length l - 1 -> i <> j -> l !! i <> l !! j.
Proof.
  unfold isRealPath. rewrite forallb_forall. split.
  - intros H i j Hi Hj Hne Heq.
    specialize (H i (proj2 (interior_range l i) Hi)).
    rewrite forallb_forall in H.
    specialize (H j (proj2 (interior_range l j) Hj)).
    destruct (decide (i = j)) as [|_]; [done|].
    apply negb_true_iff, strict_eq_false in H. by rewrite !index_nat in H.
  - intros H i Hi. apply forallb_forall. intros j Hj.
    destruct (decide (i = j)) as [|Hne]; [done|].
    apply negb_true_iff, strict_eq_false. rewrite !index_nat.
    apply H; [by apply interior_range | by apply interior_range | done].
Qed.

Lemma forallb_false {A} (f : A -> bool) (l : list A) :
  forallb f l = false -> exists x, In x l /\ f x = false.
Proof.
  induction l as [|x l IH]; simpl; [done|].
  destruct (f x) eqn:Hx; simpl.
  - intros H. destruct (IH H) as (y & Hy & Hfy). eauto.
  - eauto.
Qed.

Lemma isRealPath_interiorRepeat (l : list AtomRef) :
  isRealPath l = false <-> interiorRepeat l.
Proof.
  split.
  - unfold isRealPath. intros H.
    apply forallb_false in H as (i & Hi & H).
    apply forallb_false in H as (j & Hj & H).
    apply interior_range in Hi, Hj.
    destruct (decide (i = j)) as [|Hne]; [done|].
    apply negb_false_iff, strict_eq_true in H. rewrite !index_nat in H.
    destruct (lookup_lt_is_Some_2 l i) as [a Ha]; [lia|].
    destruct (decide (i < j)).
    + exists i, j, a. repeat split; try lia; congruence.
    + exists j, i, a. repeat split; try lia; congruence.
  - rewrite <- not_true_iff_false, isRealPath_true.
    intros (i & j & a & Hi & Hij & Hj & Hai & Haj) H.
    apply (H i j); [lia | lia | lia | congruence].
Qed.

Lemma spliceAtoms_mergedWalk (this other : RingPathEdge) (a : AtomRef) :
  spliceAtoms this other (Some a) = mergedWalk a (atoms this) (atoms other).
Proof.
  unfold spliceAtoms, mergedWalk. rewrite push_up_all, !index_0.
  unfold strict_eq.
  destruct (decide (head (atoms other) = Some a)) as [Ho|Ho];
    [rewrite (bool_decide_eq_true_2 _ Ho) | rewrite (bool_decide_eq_false_2 _ Ho)];
    (destruct (decide (head (atoms this) = Some a)) as [Ht|Ht];
     [rewrite (bool_decide_eq_true_2 _ Ht) | rewrite (bool_decide_eq_false_2 _ Ht)]);
    first [apply push_up_tail | apply push_down_tail_reverse].
Qed.

(** The first half of the merged walk ends at the shared atom and the second
    half continues from it. *)
Lemma mergedWalk_oriented (this other : RingPathEdge) (a : AtomRef) :
  sharedEndpoint this other a ->
  last (if decide (head (atoms this) = Some a) then reverse (atoms this) else atoms this)
    = Some a /\
  head (if decide (head (atoms other) = Some a) then atoms other else reverse (atoms other))
    = Some a.
Proof.
  unfold sharedEndpoint, isEndpoint, firstAtom, lastAtom.
  rewrite !index_0, !index_last. intros [Ht Ho]. split.
  - destruct (decide (head (atoms this) = Some a)) as [H|H].
    + by rewrite last_reverse.
    + by destruct Ht.
  - destruct (decide (head (atoms other) = Some a)) as [H|H]; [done|].
    rewrite head_reverse. by destruct Ho.
Qed.

Lemma getIntersection_throws (this other : RingPathEdge) :
  getIntersection this (atoms other) = Throw no_intersection <-> ~ sharesEndpoint this other.
Proof.
  unfold getIntersection, sharesEndpoint, firstAtom, lastAtom.
  set (tl := index (atoms this) (len (atoms this) - 1)).
  set (tf := index (atoms this) 0).
  set (ol := index (atoms other) (len (atoms other) - 1)).
  set (ofst := index (atoms other) 0).
  unfold strict_eq.
  repeat case_bool_decide; simpl; split; try done; try tauto;
    intros H; exfalso; apply H; tauto.
Qed.

Lemma getIntersection_returns (this other : RingPathEdge) :
  sharesEndpoint this other ->
  exists x, getIntersection this (atoms other) = Normal x /\
            (x = lastAtom this \/ x = firstAtom this) /\
            (x = firstAtom other \/ x = lastAtom other).
Proof.
  unfold getIntersection, sharesEndpoint, firstAtom, lastAtom.
  set (tl := index (atoms this) (len (atoms this) - 1)).
  set (tf := index (atoms this) 0).
  set (ol := index (atoms other) (len (atoms other) - 1)).
  set (ofst := index (atoms other) 0).
  unfold strict_eq. intros H.
  repeat case_bool_decide; simpl;
    try (eexists; split; [reflexivity|]; tauto).
  tauto.
Qed.

Lemma head_last_cases {A} (l : list A) :
  (l = [] /\ head l = None /\ last l = None) \/
  (l <> [] /\ exists f z, head l = Some f /\ last l = Some z).
Proof.
  destruct l as [|x l]; [by left|right].
  split; [done|]. exists x. simpl.
  destruct (last (x :: l)) as [z|] eqn:Hz; [by exists z|].
  by apply last_None in Hz.
Qed.

Lemma sharesEndpoint_atoms (this other : RingPathEdge) :
  atoms this <> [] \/ atoms other <> [] ->
  sharesEndpoint this other <-> exists a, sharedEndpoint this other a.
Proof.
  unfold sharesEndpoint, sharedEndpoint, isEndpoint, firstAtom, lastAtom.
  rewrite !index_0, !index_last. intros Hne.
  destruct (head_last_cases (atoms this)) as [(Ht & -> & ->)|(_ & tf & tz & -> & ->)];
    destruct (head_last_cases (atoms other)) as [(Ho & -> & ->)|(_ & f & z & -> & ->)].
  - destruct Hne; done.
  - split; [intros [H|[H|[H|H]]]; done | intros (a & [H|H] & _); done].
  - split; [intros [H|[H|[H|H]]]; done | intros (a & _ & [H|H]); done].
  - split.
    + intros [H|[H|[H|H]]]; injection H as ->; eauto.
    + intros (a & [H1|H1] & [H2|H2]); rewrite H1, H2; tauto.
Qed.

End PathEdgeFacts.

(** ** Ring path edges: the contract of [splice] *)

Module PathEdgeSpec.
Import JS JSFacts PathEdge PathEdgeFacts.

(** [isCycle] holds exactly when the walk is longer than two atoms and its
    first atom is its last atom. *)
Lemma isCycle_spec (e : RingPathEdge) :
  isCycle e = true <-> firstAtom e = lastAtom e /\ 2 < length (atoms e).
Proof.
  unfold isCycle, firstAtom, lastAtom, len.
  rewrite andb_true_iff, bool_decide_eq_true, strict_eq_true.
  split; intros [H1 H2]; (split; [first [exact H2 | lia] | first [exact H1 | lia]]).
Qed.

(** Whatever atom [getIntersection] returns, [splice] joins the two walks
    there: it answers [null] exactly when the merged walk repeats an atom in
    its interior, and the merged walk otherwise. *)
Lemma splice_at_intersection (this other : RingPathEdge) (a : AtomRef) :
  getIntersection this (atoms other) = Normal (Some a) ->
  let merged := mergedWalk a (atoms this) (atoms other) in
  (splice this other = Normal None <-> interiorRepeat merged) /\
  (~ interiorRepeat merged -> splice this other = Normal (Some {| atoms := merged |})) /\
  (forall e, splice this other = Normal (Some e) ->
     atoms e = merged /\
     (isCycle e = true <-> firstAtom e = lastAtom e /\ 2 < length (atoms e))).
Proof.
  intros Hint merged.
  assert (Hsplice : splice this other =
                    if negb (isRealPath merged) then Normal None
                    else Normal (Some {| atoms := merged |})).
  { unfold splice. rewrite Hint. simpl. by rewrite spliceAtoms_mergedWalk. }
  rewrite Hsplice.
  destruct (isRealPath merged) eqn:Hreal; simpl.
  - assert (Hno : ~ interiorRepeat merged).
    { intros H. apply isRealPath_interiorRepeat in H. congruence. }
    split; [split; [discriminate | tauto] | split; [done|]].
    intros e [= <-]. split; [done | apply isCycle_spec].
  - apply isRealPath_interiorRepeat in Hreal.
    split; [tauto | split; [tauto | discriminate]].
Qed.

(** With exactly one shared endpoint atom, that atom is the intersection. *)
Lemma getIntersection_unique (this other : RingPathEdge) (a : AtomRef) :
  sharedEndpoint this other a ->
  (forall b, sharedEndpoint this other b -> b = a) ->
  getIntersection this (atoms other) = Normal (Some a).
Proof.
  intros Ha Huniq.
  assert (Hne : atoms this <> []).
  { destruct Ha as [[H|H] _]; unfold firstAtom, lastAtom in H;
      intros Hnil; rewrite Hnil in H; done. }
  destruct (getIntersection_returns this other) as (x & -> & Hx & Hy).
  { apply sharesEndpoint_atoms; eauto. }
  f_equal.
  destruct x as [b|].
  - f_equal. apply Huniq. split.
    + destruct Hx as [Hx|Hx]; [by right | by left].
    + destruct Hy as [Hy|Hy]; [by left | by right].
  - exfalso. unfold firstAtom, lastAtom in Hx. rewrite index_0, index_last in Hx.
    destruct (head_last_cases (atoms this)) as [(? & _)|(_ & f & z & Hf & Hz)]; [done|].
    rewrite Hf, Hz in Hx. by destruct Hx.
Qed.

(** C8. For two path edges that share exactly one endpoint atom [a], [splice]
    returns [null] exactly when the merged atom sequence holds some atom at
    two interior positions (neither first nor last); otherwise it returns the
    merged path edge, and that edge [isCycle] exactly when its first atom is
    its last atom and it is longer than 2. *)
Theorem splice_exactly_one_shared_endpoint (this other : RingPathEdge) (a : AtomRef) :
  sharedEndpoint this other a ->
  (forall b, sharedEndpoint this other b -> b = a) ->
  let merged := mergedWalk a (atoms this) (atoms other) in
  (splice this other = Normal None <-> interiorRepeat merged) /\
  (~ interiorRepeat merged -> splice this other = Normal (Some {| atoms := merged |})) /\
  (forall e, splice this other = Normal (Some e) ->
     atoms e = merged /\
     (isCycle e = true <-> firstAtom e = lastAtom e /\ 2 < length (atoms e))).
Proof.
  intros Ha Huniq. apply splice_at_intersection. by apply getIntersection_unique.
Qed.

(** C10. When neither the first nor the last atom of one edge equals the first
    or the last atom of the other, [getIntersection] and hence [splice] throw
    the error ['Couldn't splice - no intersection'] (no [null] result); when
    such a shared endpoint exists, [getIntersection] returns it and [splice]
    ends normally.  Endpoints are compared as the code compares them
    ([===]; both endpoints of an edge without atoms are [undefined]). *)
Theorem splice_throws_iff_no_shared_endpoint (this other : RingPathEdge) :
  (~ sharesEndpoint this other ->
     getIntersection this (atoms other) = Throw no_intersection /\
     splice this other = Throw no_intersection) /\
  (sharesEndpoint this other ->
     (exists x, getIntersection this (atoms other) = Normal x /\
                (x = lastAtom this \/ x = firstAtom this) /\
                (x = firstAtom other \/ x = lastAtom other)) /\
     (exists r, splice this other = Normal r)).
Proof.
  split.
  - intros Hno. apply getIntersection_throws in Hno.
    split; [done|]. unfold splice. by rewrite Hno.
  - intros Hshare.
    destruct (getIntersection_returns this other Hshare) as (x & Hx & Hends).
    split; [by exists x|].
    unfold splice. rewrite Hx. simpl.
    destruct (isRealPath (spliceAtoms this other x)); simpl; eauto.
Qed.

Lemma splice_exactly_one_shared_endpoint_witness :
  sharedEndpoint {| atoms := [1; 2; 3] |} {| atoms := [3; 2; 5] |} 3 /\
  (splice {| atoms := [1; 2; 3] |} {| atoms := [3; 2; 5] |} = Normal None
   <-> interiorRepeat [1; 2; 3; 2; 5]).
Proof.
  assert (Hs : sharedEndpoint {| atoms := [1; 2; 3] |} {| atoms := [3; 2; 5] |} 3).
  { split; [right | left]; reflexivity. }
  split; [exact Hs|].
  refine (proj1 (splice_exactly_one_shared_endpoint
                   {| atoms := [1; 2; 3] |} {| atoms := [3; 2; 5] |} 3 Hs _)).
  intros b [[H|H] [H'|H']]; vm_compute in H, H'; congruence.
Defined.

Lemma splice_throws_iff_no_shared_endpoint_witness :
  splice {| atoms := [1; 2] |} {| atoms := [3; 4] |} = Throw no_intersection /\
  (exists r, splice {| atoms := [1; 2; 3] |} {| atoms := [3; 1] |} = Normal r).
Proof.
  split.
  - refine (proj2 (proj1 (splice_throws_iff_no_shared_endpoint
                            {| atoms := [1; 2] |} {| atoms := [3; 4] |}) _)).
    intros [H|[H|[H|H]]]; vm_compute in H; discriminate.
  - refine (proj2 (proj2 (splice_throws_iff_no_shared_endpoint
                            {| atoms := [1; 2; 3] |} {| atoms := [3; 1] |}) _)).
    left. reflexivity.
Defined.

(** Closing a ring: the two walks share both endpoints, [splice] joins them
    at the last atom of [this] and the result is a cycle. *)
Example splice_closes_cycle :
  splice {| atoms := [1; 2; 3] |} {| atoms := [3; 1] |}
    = Normal (Some {| atoms := [1; 2; 3; 1] |}) /\
  isCycle {| atoms := [1; 2; 3; 1] |} = true.
Proof. split; reflexivity. Qed.

(** A walk that would pass twice through an interior atom is rejected. *)
Example splice_rejects_revisit :
  splice {| atoms := [1; 2; 3] |} {| atoms := [3; 2; 5] |} = Normal None.
Proof. reflexivity. Qed.

End PathEdgeSpec.


(** ** The coordinate generator: flag reset and the loops *)

Module GeneratorFacts.
Import JS JSFacts Model CoordinateGenerator.

Lemma withAtoms_same (st : State) : withAtoms (atoms (molecule st)) st = st.
Proof. by destruct st as [[? ? ?] ?]. Qed.

Lemma withAtoms_twice (l1 l2 : list ModelAtom) (st : State) :
  withAtoms l2 (withAtoms l1 st) = withAtoms l2 st.
Proof. done. Qed.

Lemma forEach_snoc {A} (arr : list A) (a : A) (callback : A -> State -> State) (st : State) :
  forEach (arr ++ [a]) callback st = callback a (forEach arr callback st).
Proof. unfold forEach. by rewrite foldl_app. Qed.

(** Updating the atoms behind the handles [0 .. k-1] one after the other
    maps the update over the first [k] atoms. *)
Lemma forEach_updateAtom_prefix (g : ModelAtom -> ModelAtom) (k : nat) (st : State) :
  k <= length (atoms (molecule st)) ->
  forEach (seq 0 k) (fun f => updateAtom f g) st
  = withAtoms (map g (take k (atoms (molecule st))) ++ drop k (atoms (molecule st))) st.
Proof.
  induction k as [|k IH]; intros Hk.
  - simpl. by rewrite drop_0, withAtoms_same.
  - rewrite seq_S, forEach_snoc, IH by lia. simpl.
    destruct (lookup_lt_is_Some_2 (atoms (molecule st)) k) as [a Ha]; [lia|].
    unfold updateAtom. simpl. rewrite withAtoms_twice. f_equal.
    rewrite (take_S_r _ _ _ Ha), map_app, (drop_S _ _ _ Ha). simpl.
    rewrite <- app_assoc. simpl.
    rewrite alter_app_r_alt by (rewrite length_map, length_take; lia).
    rewrite length_map, length_take.
    replace (k - k `min` length (atoms (molecule st))) with 0 by lia.
    done.
Qed.

Lemma resetFlags_map (st : State) :
  resetFlags st = withAtoms (map resetAtom (atoms (molecule st))) st.
Proof.
  unfold resetFlags, countAtoms. rewrite forEach_updateAtom_prefix by done.
  by rewrite firstn_all, drop_all, app_nil_r.
Qed.

Lemma resetAtom_spec (atom : ModelAtom) :
  coord (resetAtom atom) = coord atom /\
  coords (resetAtom atom) = coords atom /\
  flags (resetAtom atom) = noFlags.
Proof. by destruct atom as [? ? []]. Qed.

(** *** Bonds *)

Lemma otherAtom_spec (bond : ModelBond) (atom : AtomRef) :
  (atom = source bond -> otherAtom bond atom = Some (target bond)) /\
  (atom <> source bond -> atom = target bond -> otherAtom bond atom = Some (source bond)) /\
  (atom <> source bond -> atom <> target bond -> otherAtom bond atom = None).
Proof. unfold otherAtom. repeat split; intros; repeat case_decide; congruence. Qed.

(** Every bond that [getAtoms] walks over has [atom] at one end, so
    [otherAtom] never answers [null] there. *)
Lemma getConnectedBondsList_incident (m : ModelMolecule) (atom : AtomRef) (bond : ModelBond) :
  bond ∈ getConnectedBondsList m atom -> is_Some (otherAtom bond atom).
Proof.
  unfold getConnectedBondsList. rewrite list_elem_of_filter. intros [Hends _].
  unfold otherAtom. repeat case_decide; eauto. destruct Hends; congruence.
Qed.

(** *** Counting atoms *)

Lemma countAtoms_updateAtom (atom : AtomRef) (f : ModelAtom -> ModelAtom) (st : State) :
  countAtoms (molecule (updateAtom atom f st)) = countAtoms (molecule st).
Proof. unfold updateAtom, countAtoms. simpl. apply length_alter. Qed.

Lemma forEach_invariant {A} (measure : State -> nat) (arr : list A)
  (callback : A -> State -> State) (st : State) :
  (forall a st, measure (callback a st) = measure st) ->
  measure (forEach arr callback st) = measure st.
Proof.
  intros Hcb. revert st. induction arr as [|a arr IH]; intros st; [done|].
  unfold forEach in *. simpl. by rewrite IH, Hcb.
Qed.


(** [layoutNextRingSystem] never finds a bond, so all it does is to reset
    the atoms of the rings that are not placed. *)
Lemma layoutNextRingSystem_resets `{Collaborators}
  (firstBondVector : MathVector2D) (st : State) (ringsets : list (list RingRef)) :
  layoutNextRingSystem firstBondVector st ringsets = resetUnplacedRingAtoms (sssr st) st.
Proof. done. Qed.

Lemma countAtoms_chainDirection `{Collaborators} (at_ : AtomRef)
  (placedAtoms unplacedAtoms chain : list AtomRef) (st : State) :
  KeepsAtomCount ->
  match chainDirection at_ placedAtoms unplacedAtoms chain st with
  | Ok (st', _) => countAtoms (molecule st') = countAtoms (molecule st)
  | Raised _ st' => countAtoms (molecule st') = countAtoms (molecule st)
  end.
Proof.
  intros [Hdist _]. unfold chainDirection.
  destruct (1 <? length placedAtoms).
  - destruct (chain !! 1 ≫= coordOf _); [|apply Hdist].
    destruct (coordOf _ at_); apply Hdist.
  - by destruct (getNextBondVector _ _ _ _ _).
Qed.

Lemma countAtoms_handleAliphaticsStep `{Collaborators} (bondCount : nat) (st : State) :
  KeepsAtomCount ->
  match handleAliphaticsStep bondCount st with
  | Ok (st', _) => countAtoms (molecule st') = countAtoms (molecule st)
  | Raised _ st' => countAtoms (molecule st') = countAtoms (molecule st)
  end.
Proof.
  intros Hkeep. unfold handleAliphaticsStep.
  destruct (getNextAtomWithAliphaticUnplacedNeigbors st bondCount) as [[at_|]|msg];
    [|done|done].
  destruct (1 <? length (getLongestUnplacedChain st at_)); [|done].
  pose proof (countAtoms_chainDirection at_ (getAtoms at_ st bondCount true)
                (getAtoms at_ st bondCount false) (getLongestUnplacedChain st at_) st Hkeep)
    as Hdir.
  destruct (chainDirection _ _ _ _ st) as [[st1 direction]|msg st1]; [|done].
  destruct Hkeep as [_ Hplace]. rewrite Hplace, <- Hdir.
  apply (forEach_invariant (fun st => countAtoms (molecule st))).
  intros z st'. destruct (_ !! z); [apply countAtoms_updateAtom | done].
Qed.

Lemma handleAliphaticsLoop_unfold `{Collaborators} (fuel bondCount cntr : nat) (st : State) :
  handleAliphaticsLoop (S fuel) bondCount cntr st
  = match handleAliphaticsStep bondCount st with
    | Raised msg st => Some (Raised msg st)
    | Ok (st, done) =>
        if negb done && (S cntr <=? countAtoms (molecule st))
        then handleAliphaticsLoop fuel bondCount (S cntr) st
        else Some (Ok st)
    end.
Proof. done. Qed.

Lemma handleAliphaticsLoop_returns `{Collaborators} (fuel bondCount cntr : nat) (st : State) :
  KeepsAtomCount ->
  1 <= fuel ->
  countAtoms (molecule st) + 1 <= fuel + cntr ->
  exists r, handleAliphaticsLoop fuel bondCount cntr st = Some r /\
            countAtoms (molecule (reached r)) = countAtoms (molecule st).
Proof.
  intros Hkeep. revert cntr st.
  induction fuel as [|fuel IH]; intros cntr st Hfuel Hle; [lia|].
  rewrite handleAliphaticsLoop_unfold.
  pose proof (countAtoms_handleAliphaticsStep bondCount st Hkeep) as Hcount.
  destruct (handleAliphaticsStep bondCount st) as [[st1 done_]|msg st1];
    [|by exists (Raised msg st1)].
  destruct (negb done_ && (S cntr <=? countAtoms (molecule st1))) eqn:Hcont.
  - apply andb_true_iff in Hcont as [_ Hcntr]. apply Nat.leb_le in Hcntr.
    destruct (IH (S cntr) st1) as (r & Hloop & Hr); [lia | lia |].
    exists r. split; [done | congruence].
  - by exists (Ok st1).
Qed.


(** *** The largest ring set *)

Lemma insertByLength_perm {A} (s : list A) (sorted : list (list A)) :
  insertByLength s sorted ≡ₚ s :: sorted.
Proof.
  induction sorted as [|t rest IH]; simpl; [done|].
  destruct (length s <? length t); [done|].
  rewrite IH. apply Permutation_swap.
Qed.

Lemma insertByLength_sorted {A} (s : list A) (sorted : list (list A)) :
  StronglySorted shorterOrEqual sorted ->
  StronglySorted shorterOrEqual (insertByLength s sorted).
Proof.
  induction 1 as [|t rest Hsorted IH Hall]; simpl.
  - repeat constructor.
  - destruct (length s <? length t) eqn:Hlt.
    + apply Nat.ltb_lt in Hlt. constructor; [by constructor|].
      constructor; [unfold shorterOrEqual; lia|].
      eapply Forall_impl; [exact Hall|]. unfold shorterOrEqual. intros; lia.
    + apply Nat.ltb_ge in Hlt. constructor; [done|].
      rewrite insertByLength_perm. by constructor.
Qed.

Lemma sortByLength_spec {A} (ringsets : list (list A)) :
  sortByLength ringsets ≡ₚ ringsets /\ StronglySorted shorterOrEqual (sortByLength ringsets).
Proof.
  unfold sortByLength.
  assert (Hgen : forall acc : list (list A),
             StronglySorted shorterOrEqual acc ->
             foldl (fun sorted s => insertByLength s sorted) acc ringsets ≡ₚ acc ++ ringsets /\
             StronglySorted shorterOrEqual
               (foldl (fun sorted s => insertByLength s sorted) acc ringsets)).
  { induction ringsets as [|s rest IH]; intros acc Hacc; simpl.
    - by rewrite app_nil_r.
    - destruct (IH (insertByLength s acc)) as [Hperm Hsorted];
        [by apply insertByLength_sorted|].
      split; [|done].
      rewrite Hperm, insertByLength_perm. simpl. apply Permutation_middle. }
  apply (Hgen []). constructor.
Qed.

Lemma last_of_sorted {A} (l : list (list A)) (z : list A) :
  StronglySorted shorterOrEqual l -> last l = Some z ->
  Forall (fun s => shorterOrEqual s z) l.
Proof.
  induction 1 as [|t rest Hsorted IH Hall]; intros Hlast; [done|].
  destruct rest as [|u rest].
  - injection Hlast as <-. repeat constructor.
  - specialize (IH Hlast). constructor; [|done].
    rewrite Forall_forall in Hall, IH.
    assert (Hz : z ∈ u :: rest).
    { assert (Hlast' : last (u :: rest) = Some z) by exact Hlast.
      apply last_Some in Hlast' as [l' Hl']. rewrite Hl'.
      apply elem_of_app. right. by apply list_elem_of_singleton. }
    by apply Hall.
Qed.

(** Lines 81-82: the ring set taken for the first placement is one of the
    given ring sets and none of them has more rings. *)
Lemma largestRingset_is_largest {A} (ringsets : list (list A)) :
  ringsets <> [] ->
  exists largest,
    last (sortByLength ringsets) = Some largest /\
    largest ∈ ringsets /\
    forall s, s ∈ ringsets -> length s <= length largest.
Proof.
  intros Hne. destruct (sortByLength_spec ringsets) as [Hperm Hsorted].
  destruct (last (sortByLength ringsets)) as [largest|] eqn:Hlast.
  - exists largest. split; [done|]. split.
    + rewrite <- Hperm. apply last_Some in Hlast as [l' ->].
      apply elem_of_app. right. by apply list_elem_of_singleton.
    + intros s Hs. rewrite <- Hperm in Hs.
      pose proof (last_of_sorted _ _ Hsorted Hlast) as Hall.
      rewrite Forall_forall in Hall. by apply Hall.
  - apply last_None in Hlast. rewrite Hlast in Hperm.
    apply Permutation_nil_l in Hperm. congruence.
Qed.

End GeneratorFacts.

(** ** The coordinate generator: what [generate] does *)

Module GeneratorSpec.
Import JS JSFacts Model CoordinateGenerator GeneratorFacts Samples.





(** C1. A molecule with more than one atom and more than one fragment makes
    [generate] throw ['Molecule not connected.']; in the state the throw
    leaves behind every atom has the coordinate it had on entry and all its
    flags reset, and bonds, fragment count and rings are untouched. *)
Theorem generate_not_connected `{Collaborators} (fuel : nat) (st : State) :
  1 < countAtoms (molecule st) ->
  1 < fragmentCount (molecule st) ->
  exists st',
    generate fuel st = Thrown not_connected st' /\
    length (atoms (molecule st')) = length (atoms (molecule st)) /\
    (forall i atom, atoms (molecule st) !! i = Some atom ->
       exists atom', atoms (molecule st') !! i = Some atom' /\
                     coord atom' = coord atom /\ coords atom' = coords atom /\
                     flags atom' = noFlags) /\
    bonds (molecule st') = bonds (molecule st) /\
    fragmentCount (molecule st') = fragmentCount (molecule st) /\
    sssr st' = sssr st.
Proof.
  intros Hatoms Hfragments. exists (resetFlags st).
  split.
  - unfold generate.
    destruct (decide (countAtoms (molecule st) = 1)) as [Hone|_]; [lia|].
    rewrite resetFlags_map. simpl.
    destruct (decide (1 < fragmentCount (molecule st))); [done | lia].
  - rewrite resetFlags_map. simpl.
    split; [apply length_map|]. split; [|done].
    intros i atom Hi. exists (resetAtom atom).
    split; [by rewrite list_lookup_fmap, Hi | apply resetAtom_spec].
Qed.

Lemma generate_not_connected_witness :
  exists st',
    @generate flaggingPlacer 0 twoFragments = Thrown not_connected st' /\
    length (atoms (molecule st')) = 2.
Proof.
  destruct (@generate_not_connected flaggingPlacer 0 twoFragments)
    as (st' & Hthrown & Hlength & _); [vm_compute; lia | vm_compute; lia |].
  exists st'. split; [exact Hthrown | exact Hlength].
Defined.

(** What [generate] does with a molecule of one atom: after the flag reset
    it writes the origin to the property [coords] of the atom. *)
Lemma generate_single_atom `{Collaborators} (fuel : nat) (st : State) :
  countAtoms (molecule st) = 1 ->
  generate fuel st = Returned (updateAtom 0 (writeCoords origin) (resetFlags st)).
Proof.
  intros Hone. unfold generate.
  destruct (decide (countAtoms (molecule st) = 1)); done.
Qed.

(** C2, evaluated on a molecule that consists of one atom, whatever the
    atom holds on entry: [generate] returns at once, the flags are reset, the
    origin is stored under [coords], and the coordinate field [coord] of the
    atom is what it was (empty, if the atom had no coordinate yet). *)
Theorem generate_single_atom_coord_not_written `{Collaborators}
  (fuel : nat) (atom : ModelAtom) :
  exists atom',
    generate fuel (loneAtom atom) = Returned (withAtoms [atom'] (loneAtom atom)) /\
    coord atom' = coord atom /\ coords atom' = Some origin /\ flags atom' = noFlags.
Proof.
  exists (writeCoords origin (resetAtom atom)).
  split; [reflexivity | by destruct atom as [? ? []]].
Qed.


Lemma flaggingPlacer_keeps_atoms : @KeepsAtomCount flaggingPlacer.
Proof.
  split; [done|]. intros chain direction length st. simpl. unfold flagPlaced.
  apply (forEach_invariant (fun st => countAtoms (molecule st))).
  intros. apply countAtoms_updateAtom.
Qed.


(** The safety counter at work: no atom of propane is placed on entry, no
    pass places one, and the loop returns after pass 4 = [countAtoms + 1]. *)
Example alternation_gives_up_on_propane :
  @alternate flaggingPlacer 4 4 2 3 {| Vector2D.x := 0%float; Vector2D.y := 1%float |} [] 0
    (resetFlags propane) = Some (Ok (4, resetFlags propane)).
Proof. reflexivity. Qed.

(** A throw inside a pass ends the loop: asked for more bonds than propane
    has, with no atom placed, [handleAliphatics] reads [getBond(2)] and the
    first pass throws. *)
Example alternation_passes_a_throw_on :
  @alternate flaggingPlacer 4 4 3 3 {| Vector2D.x := 0%float; Vector2D.y := 1%float |} [] 0
    (resetFlags propane) = Some (Raised type_error (resetFlags propane)).
Proof. reflexivity. Qed.

(** The whole of [generate] on propane with the flagging placer: one pass of
    the loop places the chain. *)
Example generate_propane :
  exists st', @generate flaggingPlacer 4 propane = Returned st' /\
              allPlaced st' 3 = true.
Proof. eexists. split; reflexivity. Qed.

(** [ring[l]] is [undefined] for every ring, so the test [atom1 === atom2]
    compares [undefined] with [undefined]: it succeeds on every ring that has
    an atom, whatever the atoms are. *)
Lemma matchesSomeElement_any (ring1 ring2 : RingRing) (j : nat) :
  matchesSomeElement (ringElement ring1 j) ring2
  = negb (bool_decide (Ring.atoms ring2 = [])).
Proof.
  unfold matchesSomeElement, ringElement, strict_eq.
  destruct (Ring.atoms ring2) as [|a l]; done.
Qed.

(** C4, evaluated on the three rings of anthracene given in the order left,
    middle, right.  The middle ring shares atoms with two rings, the outer
    rings with one each, so the ring the specification describes is the
    middle one; [getMostComplexRing] counts 12 for every ring and answers the
    left ring. *)
Theorem getMostComplexRing_anthracene :
  map (sharingRings anthracene [0; 1; 2]) [0; 1; 2] = [1; 2; 1] /\
  mostConnectedRing anthracene [0; 1; 2] = Some 1 /\
  countNeighbors anthracene [0; 1; 2] = [12; 12; 12] /\
  getMostComplexRing anthracene [0; 1; 2] = Some 0.
Proof. repeat split; reflexivity. Qed.

(** The flagging statement of lines 77-79 changes nothing. *)
Lemma flagSssr_changes_nothing (st : State) : flagSssr st = st.
Proof.
  unfold flagSssr, forEach. induction (sssr st) as [|ring rings IH]; done.
Qed.

(** C5, evaluated on cyclopropane (3 bonds - 3 atoms + 1 = 1 expected ring,
    the ring holds the atoms 0, 1 and 2): after the flagging step of the
    seeding branch the three ring atoms still have [ISINRING] false, and they
    still have it false when [generate], run with the flagging placer,
    returns. *)
Theorem flagSssr_cyclopropane :
  sssr (flagSssr (resetFlags cyclopropane)) = [newRing [0; 1; 2] [0; 1; 2]] /\
  map (fun atom => atomFlag (flagSssr (resetFlags cyclopropane)) atom ISINRING) [0; 1; 2]
  = [false; false; false] /\
  exists st', @generate flaggingPlacer 4 cyclopropane = Returned st' /\
              map (fun atom => atomFlag st' atom ISINRING) [0; 1; 2]
              = [false; false; false].
Proof. split; [reflexivity|]. split; [reflexivity|]. eexists. split; reflexivity. Qed.

End GeneratorSpec.

(** ** Ring path edges: further properties of [splice] and [isRealPath] *)

Module PathEdgeMore.
Import JS JSFacts PathEdge PathEdgeFacts Walks.

Lemma interior_lookup (l : list AtomRef) (k : nat) :
  k < length l - 2 -> interior l !! k = l !! S k.
Proof.
  intros Hk. unfold interior. rewrite lookup_take_lt by done.
  by rewrite lookup_drop.
Qed.

Lemma length_interior (l : list AtomRef) : length (interior l) = length l - 2.
Proof. unfold interior. rewrite length_take, length_drop. lia. Qed.

(** [isRealPath] accepts a walk exactly when its interior atoms are pairwise
    different; the first and the last atom are not looked at, so a walk of up
    to three atoms is always accepted. *)
Theorem isRealPath_interior_NoDup (l : list AtomRef) :
  (isRealPath l = true <-> NoDup (interior l)) /\
  (length l <= 3 -> isRealPath l = true).
Proof.
  assert (Hiff : isRealPath l = true <-> NoDup (interior l)).
  { rewrite isRealPath_true, NoDup_alt. split.
    - intros H i j x Hi Hj.
      assert (i < length l - 2) as Hil.
      { apply lookup_lt_Some in Hi. by rewrite length_interior in Hi. }
      assert (j < length l - 2) as Hjl.
      { apply lookup_lt_Some in Hj. by rewrite length_interior in Hj. }
      rewrite interior_lookup in Hi, Hj by done.
      destruct (decide (i = j)) as [|Hne]; [done|].
      exfalso. apply (H (S i) (S j)); [lia | lia | lia | congruence].
    - intros H i j Hi Hj Hne Heq.
      destruct (lookup_lt_is_Some_2 l i) as [x Hx]; [lia|].
      destruct i as [|i]; [lia|]. destruct j as [|j]; [lia|].
      assert (i = j); [|lia].
      apply (H i j x); rewrite interior_lookup by lia; congruence. }
  split; [exact Hiff|].
  intros Hshort. apply Hiff.
  assert (Hlen : length (interior l) <= 1) by (rewrite length_interior; lia).
  destruct (interior l) as [|a [|b rest]]; [constructor | | simpl in Hlen; lia].
  apply NoDup_singleton.
Qed.

(** What [splice] builds for any answer [x] of [getIntersection]. *)
Lemma spliceAtoms_app (this other : RingPathEdge) (x : option AtomRef) :
  spliceAtoms this other x
  = (if decide (head (atoms this) = x) then reverse (atoms this) else atoms this)
      ++ tail (if decide (head (atoms other) = x) then atoms other
               else reverse (atoms other)).
Proof.
  unfold spliceAtoms. rewrite push_up_all, !index_0. unfold strict_eq.
  destruct (decide (head (atoms other) = x)) as [Ho|Ho];
    [rewrite (bool_decide_eq_true_2 _ Ho) | rewrite (bool_decide_eq_false_2 _ Ho)];
    (destruct (decide (head (atoms this) = x)) as [Ht|Ht];
     [rewrite (bool_decide_eq_true_2 _ Ht) | rewrite (bool_decide_eq_false_2 _ Ht)]);
    first [apply push_up_tail | apply push_down_tail_reverse].
Qed.

Lemma length_tail {A} (l : list A) : length (tail l) = length l - 1.
Proof. destruct l; simpl; lia. Qed.

Lemma splice_result (this other : RingPathEdge) (e : RingPathEdge) :
  splice this other = Normal (Some e) ->
  exists x, getIntersection this (atoms other) = Normal x /\
            atoms e = spliceAtoms this other x.
Proof.
  unfold splice. destruct (getIntersection this (atoms other)) as [x|msg]; [|done].
  simpl. destruct (isRealPath (spliceAtoms this other x)); simpl; [|done].
  intros [= <-]. by exists x.
Qed.

Lemma length_spliceAtoms (this other : RingPathEdge) (x : option AtomRef) :
  length (spliceAtoms this other x) = length (atoms this) + (length (atoms other) - 1).
Proof.
  rewrite spliceAtoms_app, length_app, length_tail.
  repeat case_decide; rewrite ?length_reverse; done.
Qed.

Lemma getIntersection_ends (this other : RingPathEdge) (x : option AtomRef) :
  getIntersection this (atoms other) = Normal x ->
  (x = lastAtom this \/ x = firstAtom this) /\
  (x = firstAtom other \/ x = lastAtom other).
Proof.
  intros Hx.
  destruct (getIntersection_returns this other) as (x' & Hx' & Hends).
  - apply dec_stable. intros Hno. apply getIntersection_throws in Hno. congruence.
  - rewrite Hx in Hx'. by injection Hx' as ->.
Qed.

(** Spliced with an edge that has an atom, the result is as long as both
    edges together, less the atom they are joined at, which it holds once.
    An edge without atoms can be spliced only onto an edge without atoms, and
    the result has none. *)
Theorem splice_length (this other e : RingPathEdge) :
  splice this other = Normal (Some e) ->
  (atoms other <> [] ->
   (len (atoms e) = len (atoms this) + len (atoms other) - 1)%Z) /\
  (atoms other = [] -> atoms this = [] /\ atoms e = []).
Proof.
  intros Hsplice. destruct (splice_result this other e Hsplice) as (x & Hx & He).
  split.
  - intros Hother. rewrite He. unfold len. rewrite length_spliceAtoms.
    destruct (atoms other); [done | simpl; lia].
  - intros Hother. apply getIntersection_ends in Hx as [Hthis Hx].
    unfold firstAtom, lastAtom in *. rewrite index_0, index_last in *.
    rewrite Hother in Hx. simpl in Hx.
    assert (x = None) as -> by (by destruct Hx).
    assert (atoms this = []) as Hnil.
    { destruct Hthis as [Hlast|Hhead].
      - by apply last_None.
      - by destruct (atoms this). }
    split; [done|]. by rewrite He, spliceAtoms_app, Hnil, Hother.
Qed.

Lemma splice_length_witness :
  len (atoms {| atoms := [1; 2; 3; 1] |}) = (3 + 2 - 1)%Z.
Proof.
  refine (proj1 (splice_length {| atoms := [1; 2; 3] |} {| atoms := [3; 1] |}
                   {| atoms := [1; 2; 3; 1] |} eq_refl) _).
  done.
Defined.

(** [splice] neither loses nor invents an atom: the spliced edge visits
    exactly the atoms of the two edges. *)
Theorem splice_same_atoms (this other e : RingPathEdge) (a : AtomRef) :
  splice this other = Normal (Some e) ->
  a ∈ atoms e <-> a ∈ atoms this \/ a ∈ atoms other.
Proof.
  intros Hsplice. destruct (splice_result this other e Hsplice) as (x & Hx & ->).
  apply getIntersection_ends in Hx as [Hthis Hother].
  unfold firstAtom, lastAtom in *. rewrite index_0, index_last in Hthis, Hother.
  rewrite spliceAtoms_app, elem_of_app.
  assert (Hturn : a ∈ (if decide (head (atoms this) = x)
                       then reverse (atoms this) else atoms this) <-> a ∈ atoms this).
  { case_decide; [apply elem_of_reverse | done]. }
  rewrite Hturn. clear Hturn.
  destruct (atoms other) as [|o os] eqn:Hos.
  - destruct (decide (head [] = x)); reflexivity.
  - set (O := if decide (head (o :: os) = x) then o :: os else reverse (o :: os)).
    assert (HO : a ∈ O <-> a ∈ o :: os).
    { unfold O. case_decide; [done | apply elem_of_reverse]. }
    assert (Hhead : head O = x).
    { unfold O. case_decide as Hh; [done|].
      rewrite head_reverse. destruct Hother as [Hother|Hother]; congruence. }
    rewrite <- HO.
    destruct O as [|o0 O'] eqn:HOeq.
    { exfalso. apply (f_equal length) in HOeq. unfold O in HOeq.
      case_decide; rewrite ?length_reverse in HOeq; done. }
    simpl in Hhead. simpl. rewrite elem_of_cons.
    assert (o0 ∈ atoms this) as Hin.
    { rewrite <- Hhead in Hthis. destruct Hthis as [Hl|Hf].
      - symmetry in Hl. apply last_Some in Hl as [l' ->].
        apply elem_of_app. right. by apply list_elem_of_singleton.
      - symmetry in Hf. destruct (atoms this); [done|].
        simpl in Hf. injection Hf as ->. apply list_elem_of_here. }
    split; [tauto|]. intros [H|[->|H]]; tauto.
Qed.

Lemma splice_same_atoms_witness :
  2 ∈ [1; 2; 3; 4] <-> 2 ∈ [1; 2; 3] \/ 2 ∈ [3; 4].
Proof.
  exact (splice_same_atoms {| atoms := [1; 2; 3] |} {| atoms := [3; 4] |}
           {| atoms := [1; 2; 3; 4] |} 2 eq_refl).
Defined.

(** *** Walking backwards *)

Lemma interiorRepeat_reverse (l : list AtomRef) :
  interiorRepeat l -> interiorRepeat (reverse l).
Proof.
  intros (i & j & a & Hi & Hij & Hj & Hai & Haj).
  exists (length l - S j), (length l - S i), a.
  rewrite length_reverse.
  rewrite !reverse_lookup by lia.
  replace (length l - S (length l - S j)) with j by lia.
  replace (length l - S (length l - S i)) with i by lia.
  repeat split; try done; lia.
Qed.

Lemma isRealPath_reverse (l : list AtomRef) : isRealPath (reverse l) = isRealPath l.
Proof.
  destruct (isRealPath l) eqn:Hl.
  - apply not_false_iff_true. intros H.
    apply isRealPath_interiorRepeat, interiorRepeat_reverse in H.
    rewrite reverse_involutive in H. apply isRealPath_interiorRepeat in H. congruence.
  - apply isRealPath_interiorRepeat. apply interiorRepeat_reverse.
    by apply isRealPath_interiorRepeat.
Qed.

Lemma mergedWalk_reverse (this other : RingPathEdge) (a : AtomRef) :
  sharedEndpoint this other a ->
  mergedWalk a (atoms other) (atoms this)
  = reverse (mergedWalk a (atoms this) (atoms other)).
Proof.
  intros Hshared. destruct (mergedWalk_oriented this other a Hshared) as [HT HO].
  unfold mergedWalk.
  set (T := if decide (head (atoms this) = Some a) then reverse (atoms this)
            else atoms this) in *.
  set (O := if decide (head (atoms other) = Some a) then atoms other
            else reverse (atoms other)) in *.
  assert (HO' : (if decide (head (atoms other) = Some a) then reverse (atoms other)
                 else atoms other) = reverse O).
  { unfold O. destruct (decide (head (atoms other) = Some a));
      [done | by rewrite reverse_involutive]. }
  assert (HT' : (if decide (head (atoms this) = Some a) then atoms this
                 else reverse (atoms this)) = reverse T).
  { unfold T. destruct (decide (head (atoms this) = Some a));
      [by rewrite reverse_involutive | done]. }
  rewrite HO', HT'.
  apply last_Some in HT as [T0 ->].
  destruct O as [|o O0]; [done|]. simpl in HO. injection HO as ->.
  simpl. rewrite !reverse_app, !reverse_cons, reverse_nil. simpl.
  by rewrite <- app_assoc.
Qed.

(** With exactly one shared endpoint atom, [other.splice(this)] is
    [this.splice(other)] walked backwards: both are [null], or both are edges
    and one is the reverse of the other. *)
Theorem splice_other_way_round (this other : RingPathEdge) (a : AtomRef) :
  sharedEndpoint this other a ->
  (forall b, sharedEndpoint this other b -> b = a) ->
  (splice this other = Normal None -> splice other this = Normal None) /\
  (forall e, splice this other = Normal (Some e) ->
             splice other this = Normal (Some (reversed e))).
Proof.
  intros Hshared Huniq.
  assert (Hshared' : sharedEndpoint other this a) by (destruct Hshared; by split).
  assert (Huniq' : forall b, sharedEndpoint other this b -> b = a).
  { intros b [H1 H2]. apply Huniq. by split. }
  pose proof (PathEdgeSpec.getIntersection_unique this other a Hshared Huniq) as Hx.
  pose proof (PathEdgeSpec.getIntersection_unique other this a Hshared' Huniq') as Hy.
  unfold splice. rewrite Hx, Hy. simpl.
  rewrite !spliceAtoms_mergedWalk, (mergedWalk_reverse this other a Hshared).
  rewrite isRealPath_reverse.
  destruct (isRealPath (mergedWalk a (atoms this) (atoms other))); simpl.
  - split; [done|]. by intros e [= <-].
  - split; [done|]. done.
Qed.

Lemma splice_other_way_round_witness :
  splice {| atoms := [3; 4] |} {| atoms := [1; 2; 3] |}
  = Normal (Some (reversed {| atoms := [1; 2; 3; 4] |})).
Proof.
  refine (proj2 (splice_other_way_round {| atoms := [1; 2; 3] |} {| atoms := [3; 4] |} 3
                   _ _) {| atoms := [1; 2; 3; 4] |} eq_refl).
  - split; [right | left]; reflexivity.
  - intros b [[H|H] [H'|H']]; vm_compute in H, H'; congruence.
Defined.

(** Closing a ring: when [this] leads from [a] to [b] and [other] leads from
    [b] back to [a], every edge that [splice] returns is a cycle. *)
Theorem splice_closes_ring (this other e : RingPathEdge) :
  lastAtom this = firstAtom other ->
  firstAtom this = lastAtom other ->
  2 <= length (atoms this) ->
  2 <= length (atoms other) ->
  splice this other = Normal (Some e) ->
  isCycle e = true.
Proof.
  intros Hjoin Hclose Hthis Hother Hsplice.
  assert (Hlen : length (atoms e) = length (atoms this) + (length (atoms other) - 1)).
  { destruct (splice_result this other e Hsplice) as (x & _ & ->).
    apply length_spliceAtoms. }
  apply PathEdgeSpec.isCycle_spec. split; [|lia].
  assert (Hx : getIntersection this (atoms other) = Normal (lastAtom this)).
  { unfold getIntersection, firstAtom, lastAtom in *. rewrite Hjoin.
    unfold strict_eq. by rewrite bool_decide_eq_true_2. }
  destruct (splice_result this other e Hsplice) as (x & Hx' & He).
  rewrite Hx in Hx'. injection Hx' as <-.
  unfold firstAtom, lastAtom in *. rewrite He, spliceAtoms_app.
  rewrite !index_0, !index_last in *.
  destruct (atoms this) as [|t ts] eqn:Hts; [simpl in Hthis; lia|].
  destruct (atoms other) as [|o os] eqn:Hos; [simpl in Hother; lia|].
  destruct os as [|o' os]; [simpl in Hother; lia|].
  rewrite (decide_True (P := head (o :: o' :: os) = last (t :: ts))) by done.
  change (tail (o :: o' :: os)) with (o' :: os).
  rewrite last_app.
  assert (Hlast : last (o' :: os) = last (o :: o' :: os)) by done.
  rewrite Hlast, <- Hclose.
  change (head (t :: ts)) with (Some t) in *.
  destruct (decide (Some t = last (t :: ts))) as [Hhead|Hhead]; [|done].
  by rewrite head_app, head_reverse, <- Hhead.
Qed.

Lemma splice_closes_ring_witness : isCycle {| atoms := [1; 2; 3; 1] |} = true.
Proof.
  refine (splice_closes_ring {| atoms := [1; 2; 3] |} {| atoms := [3; 1] |}
            {| atoms := [1; 2; 3; 1] |} eq_refl eq_refl _ _ eq_refl); simpl; lia.
Defined.

End PathEdgeMore.

(** ** Walks along the bonds of a ring *)

Module RingPlacerFacts.
Import JS JSFacts Model CoordinateGenerator RingPlacer.

Lemma find_first {A} (P : A -> bool) (l : list A) (i : nat) (x : A) :
  l !! i = Some x -> P x = true ->
  (forall k y, k < i -> l !! k = Some y -> P y = false) ->
  List.find P l = Some x.
Proof.
  revert i. induction l as [|z l IH]; intros i Hi Hx Hbefore; [done|].
  destruct i as [|i]; simpl in *.
  - injection Hi as ->. by rewrite Hx.
  - rewrite (Hbefore 0 z) by (done || lia).
    apply (IH i); [done | done |].
    intros k y Hk Hy. apply (Hbefore (S k) y); [lia | done].
Qed.

Lemma find_only {A} (P : A -> bool) (l : list A) (x : A) :
  x ∈ l -> P x = true -> (forall y, y ∈ l -> P y = true -> y = x) ->
  List.find P l = Some x.
Proof.
  intros Hin Hx Honly.
  destruct (List.find P l) as [y|] eqn:Hfind.
  - apply find_some in Hfind as [Hy HP]. f_equal. apply Honly; [|done].
    by apply list_elem_of_In.
  - apply list_elem_of_In in Hin. pose proof (find_none _ _ Hfind x Hin). congruence.
Qed.

Lemma joins_touches (m : ModelMolecule) (b : BondRef) (u v a : AtomRef) :
  joins m b u v -> touches m b a -> a = u \/ a = v.
Proof.
  intros (bd & Hbd & Hends) (bd' & Hbd' & Ha).
  rewrite Hbd in Hbd'. injection Hbd' as <-.
  destruct Hends as [[Hs Ht]|[Hs Ht]]; destruct Ha as [Ha|Ha]; subst; tauto.
Qed.

Lemma joins_otherAtom (m : ModelMolecule) (b : BondRef) (u v : AtomRef) :
  joins m b u v -> u <> v ->
  exists bd, bonds m !! b = Some bd /\ otherAtom bd u = Some v /\ otherAtom bd v = Some u.
Proof.
  intros (bd & Hbd & Hends) Hne. exists bd. split; [done|].
  unfold otherAtom.
  destruct Hends as [[<- <-]|[<- <-]]; repeat case_decide; done.
Qed.

Section OnARing.
Context (m : ModelMolecule) (cycle : list AtomRef) (links : list BondRef).
Context (Hring : SimpleRing m cycle links).

Lemma link_joins (i : nat) (b : BondRef) (u v : AtomRef) :
  links !! i = Some b -> cycle !! i = Some u ->
  cycle !! after (length cycle) i = Some v -> joins m b u v /\ u <> v.
Proof.
  destruct Hring as (Hlen & Hsame & Hcycle & Hlinks & Hjoin).
  intros Hb Hu Hv. destruct (Hjoin i b Hb) as (u' & v' & Hu' & Hv' & Hj).
  rewrite Hu in Hu'. rewrite Hv in Hv'. injection Hu' as <-. injection Hv' as <-.
  split; [done|]. intros Heq. rewrite Heq in Hu.
  pose proof (NoDup_lookup cycle i (after (length cycle) i) v Hcycle Hu Hv) as Hi.
  apply lookup_lt_Some in Hu. unfold after in Hi.
  destruct (S i <? length cycle) eqn:Hlt; [lia|]. apply Nat.ltb_ge in Hlt. lia.
Qed.

(** A bond of the ring that touches [cycle[k]] is the link at [k] or the
    link before it. *)
Lemma links_at_atom (b : BondRef) (k : nat) (a : AtomRef) :
  b ∈ links -> cycle !! k = Some a -> touches m b a ->
  exists i, links !! i = Some b /\ (i = k \/ after (length cycle) i = k).
Proof.
  destruct Hring as (Hlen & Hsame & Hcycle & Hlinks & Hjoin).
  intros Hin Hk Htouch.
  apply list_elem_of_lookup in Hin as [i Hi]. exists i. split; [done|].
  destruct (Hjoin i b Hi) as (u & v & Hu & Hv & Hj).
  destruct (joins_touches m b u v a Hj Htouch) as [Ha|Ha]; rewrite Ha in Hk.
  - left. exact (NoDup_lookup cycle i k u Hcycle Hu Hk).
  - right. exact (NoDup_lookup cycle _ k v Hcycle Hv Hk).
Qed.

Context (ring : RingRing) (Hbonds : Ring.bonds ring ≡ₚ links).

Lemma after_next (i : nat) : S i < length cycle -> after (length cycle) i = S i.
Proof. intros Hi. unfold after. by rewrite (proj2 (Nat.ltb_lt _ _) Hi). Qed.

Lemma getNextBond_on_ring (t : nat) (bt b' : BondRef) (a : AtomRef) :
  S (S t) < length cycle ->
  links !! t = Some bt -> links !! S t = Some b' -> cycle !! S t = Some a ->
  getNextBond m ring (Some bt) (Some a) = Some b'.
Proof.
  intros Hlt Hbt Hb' Ha.
  pose proof Hring as (Hlen & Hsame & Hcycle & Hlinks & Hjoin).
  destruct (lookup_lt_is_Some_2 cycle (S (S t))) as [v Hv]; [lia|].
  destruct (link_joins (S t) b' a v Hb' Ha) as [Hj Hne];
    [by rewrite after_next|].
  unfold getNextBond. apply find_only.
  - rewrite Hbonds. apply list_elem_of_lookup. eauto.
  - destruct Hj as (bd & -> & Hends). apply andb_true_iff. split.
    + apply negb_true_iff, strict_eq_false. intros [= ->].
      pose proof (NoDup_lookup links _ _ _ Hlinks Hbt Hb'). lia.
    + apply orb_true_iff. rewrite !strict_eq_true.
      destruct Hends as [[-> _]|[_ ->]]; tauto.
  - intros y Hy HP. apply andb_true_iff in HP as [Hnot Htouch].
    apply negb_true_iff, strict_eq_false in Hnot.
    assert (Hty : touches m y a).
    { destruct (bonds m !! y) as [bd|] eqn:Hbd; [|done]. exists bd. split; [done|].
      apply orb_true_iff in Htouch. rewrite !strict_eq_true in Htouch.
      destruct Htouch as [[= ->]|[= ->]]; tauto. }
    rewrite Hbonds in Hy.
    destruct (links_at_atom y (S t) a Hy Ha Hty) as (i & Hi & [->|Hi']).
    + congruence.
    + exfalso. unfold after in Hi'. destruct (S i <? length cycle); [|done].
      injection Hi' as ->. congruence.
Qed.

Lemma collect_on_ring (steps t : nat) (bt : BondRef) (a : AtomRef)
  (acc : list (option AtomRef)) :
  t + 2 + steps <= length cycle ->
  links !! t = Some bt -> cycle !! S t = Some a ->
  collectAtomsToDraw m ring steps (Some bt) (Some a) acc
  = Normal (acc ++ map Some (take steps (drop (t + 2) cycle))).
Proof.
  revert t bt a acc. induction steps as [|steps IH]; intros t bt a acc Hle Hbt Ha.
  - simpl. by rewrite app_nil_r.
  - pose proof Hring as (Hlen & Hsame & Hcycle & Hlinks & Hjoin).
    destruct (lookup_lt_is_Some_2 links (S t)) as [b' Hb']; [lia|].
    destruct (lookup_lt_is_Some_2 cycle (S (S t))) as [v Hv]; [lia|].
    destruct (link_joins (S t) b' a v Hb' Ha) as [Hj Hne];
      [rewrite after_next by lia; done|].
    destruct (joins_otherAtom m b' a v Hj Hne) as (bd & Hbd & Hother & _).
    simpl. rewrite (getNextBond_on_ring t bt b' a) by (done || lia).
    simpl. rewrite Hbd. simpl. rewrite Hother.
    rewrite (IH (S t) b' v) by (done || lia).
    f_equal. rewrite <- app_assoc. f_equal.
    replace (t + 2) with (S (S t)) by lia.
    rewrite (drop_S _ _ _ Hv).
    by replace (S t + 2) with (S (S (S t))) by lia.
Qed.

End OnARing.

Section PlacementOrder.
Context (m : ModelMolecule) (cycle : list AtomRef) (links : list BondRef).
Context (Hring : SimpleRing m cycle links).

Lemma touches_otherAtom (b : BondRef) (a : AtomRef) :
  match bonds m !! b with
  | Some bd => bool_decide (is_Some (otherAtom bd a))
  | None => false
  end = true <-> touches m b a.
Proof.
  unfold touches. destruct (bonds m !! b) as [bd|]; [|split; [done | by intros (? & ? & _)]].
  rewrite bool_decide_eq_true. unfold otherAtom. split.
  - intros Hsome. exists bd. split; [done|].
    repeat case_decide; [auto | auto | by destruct Hsome].
  - intros (bd' & [= <-] & Hends). repeat case_decide; eauto. destruct Hends; congruence.
Qed.

Lemma remaining_after (t : nat) (bt : BondRef) (remaining : list BondRef) :
  links !! t = Some bt -> NoDup remaining ->
  (forall b, b ∈ remaining <-> b ∈ drop t links) ->
  NoDup (List.filter (fun b => negb (strict_eq (Some b) (Some bt))) remaining) /\
  (forall b, b ∈ List.filter (fun b => negb (strict_eq (Some b) (Some bt))) remaining
             <-> b ∈ drop (S t) links).
Proof.
  pose proof Hring as (Hlen & Hsame & Hcycle & Hlinks & Hjoin).
  intros Hbt Hnodup Hmem. split; [by apply NoDup_ListNoDup, List.NoDup_filter, NoDup_ListNoDup|].
  intros b. rewrite list_elem_of_In, List.filter_In, <- list_elem_of_In, Hmem.
  rewrite negb_true_iff, strict_eq_false.
  rewrite (drop_S _ _ _ Hbt), elem_of_cons.
  assert (Hnot : bt ∉ drop (S t) links).
  { intros Hin. apply list_elem_of_lookup in Hin as [j Hj]. rewrite lookup_drop in Hj.
    pose proof (NoDup_lookup links _ _ _ Hlinks Hbt Hj). lia. }
  split.
  - intros [[->|Hin] Hne]; [congruence | done].
  - intros Hin. split; [by right|]. intros [= ->]. done.
Qed.

Lemma nextBond_on_ring (t : nat) (a : AtomRef) (bt : BondRef) (remaining : list BondRef) :
  1 <= t -> cycle !! t = Some a -> links !! t = Some bt ->
  (forall b, b ∈ remaining <-> b ∈ drop t links) ->
  List.find (fun b => match bonds m !! b with
                      | Some bd => bool_decide (is_Some (otherAtom bd a))
                      | None => false
                      end) remaining = Some bt.
Proof.
  pose proof Hring as (Hlen & Hsame & Hcycle & Hlinks & Hjoin).
  intros Ht Ha Hbt Hmem. apply find_only.
  - apply Hmem. rewrite (drop_S _ _ _ Hbt). apply list_elem_of_here.
  - apply touches_otherAtom. destruct (Hjoin t bt Hbt) as (u & v & Hu & Hv & Hj).
    rewrite Ha in Hu. injection Hu as <-.
    destruct Hj as (bd & Hbd & Hends). exists bd. split; [done|].
    destruct Hends as [[-> _]|[_ ->]]; tauto.
  - intros y Hy HP. apply touches_otherAtom in HP. apply Hmem in Hy.
    apply list_elem_of_lookup in Hy as [j Hj]. rewrite lookup_drop in Hj.
    assert (y ∈ links) as Hin by (apply list_elem_of_lookup; eauto).
    destruct (links_at_atom m cycle links Hring y t a Hin Ha HP) as (i & Hi & Hcase).
    pose proof (NoDup_lookup links _ _ _ Hlinks Hi Hj) as ->.
    destruct Hcase as [Heq|Hafter].
    + assert (j = 0) as -> by lia. rewrite Nat.add_0_r in Hj. congruence.
    + exfalso. unfold after in Hafter.
      destruct (S (t + j) <? length cycle); lia.
Qed.

Lemma placement_from (fuel t : nat) (a : AtomRef) (bt : BondRef)
  (bond : option BondRef) (remaining : list BondRef) :
  length cycle - t <= fuel -> t < length cycle ->
  cycle !! t = Some a -> links !! t = Some bt ->
  NoDup remaining -> (forall b, b ∈ remaining <-> b ∈ drop t links) ->
  List.find (fun b => match bonds m !! b with
                      | Some bd => bool_decide (is_Some (otherAtom bd a))
                      | None => false
                      end) remaining = Some bt ->
  atomsInPlacementOrder fuel m a bond remaining = Some (Normal (drop (S t) cycle)).
Proof.
  pose proof Hring as (Hlen & Hsame & Hcycle & Hlinks & Hjoin).
  revert t a bt bond remaining.
  induction fuel as [|fuel IH]; intros t a bt bond remaining Hfuel Ht Ha Hbt Hnodup Hmem Hfind;
    [lia|].
  simpl. rewrite Hfind.
  destruct (remaining_after t bt remaining Hbt Hnodup Hmem) as [Hnodup' Hmem'].
  set (remaining' := List.filter (fun b => negb (strict_eq (Some b) (Some bt))) remaining) in *.
  destruct (decide (S t < length cycle)) as [Hmore|Hlast].
  - destruct (lookup_lt_is_Some_2 links (S t)) as [b' Hb']; [lia|].
    destruct (lookup_lt_is_Some_2 cycle (S t)) as [v Hv]; [lia|].
    assert (Hnonempty : (0 <? length remaining') = true).
    { apply Nat.ltb_lt. assert (b' ∈ remaining') as Hin.
      { apply Hmem'. rewrite (drop_S _ _ _ Hb'). apply list_elem_of_here. }
      destruct remaining'; [by apply elem_of_nil in Hin | simpl; lia]. }
    rewrite Hnonempty.
    destruct (link_joins m cycle links Hring t bt a v Hbt Ha) as [Hj Hne].
    { unfold after. by rewrite (proj2 (Nat.ltb_lt _ _) Hmore). }
    destruct (joins_otherAtom m bt a v Hj Hne) as (bd & Hbd & Hother & _).
    simpl. rewrite Hbd. simpl. rewrite Hother.
    assert (Hfind' : List.find (fun b => match bonds m !! b with
                                         | Some bd => bool_decide (is_Some (otherAtom bd v))
                                         | None => false
                                         end) remaining' = Some b').
    { apply (nextBond_on_ring (S t)); [lia | done | done | done]. }
    rewrite (IH (S t) v b' (Some bt) remaining') by (done || lia).
    by rewrite (drop_S _ _ _ Hv).
  - assert (Hempty : remaining' = []).
    { destruct remaining' as [|y rest]; [done|]. exfalso.
      assert (y ∈ drop (S t) links) as Hin by (apply Hmem'; apply list_elem_of_here).
      rewrite drop_ge in Hin by lia. by apply elem_of_nil in Hin. }
    rewrite Hempty. simpl. by rewrite drop_ge by lia.
Qed.

End PlacementOrder.

(** [atomsInPlacementOrder] on a simple ring: started at an atom of the ring
    whose bond towards the next atom comes first in [ring.bonds], it answers
    the other [n - 1] atoms of the ring, each once, in ring order, and it does
    not throw; [n] units of fuel are enough. *)
Theorem atomsInPlacementOrder_simple_ring (m : ModelMolecule) (ring : RingRing)
  (cycle : list AtomRef) (links : list BondRef) (fuel : nat)
  (start : AtomRef) (first closing : BondRef) (bond : option BondRef) (i j : nat) :
  SimpleRing m cycle links ->
  Ring.bonds ring ≡ₚ links ->
  cycle !! 0 = Some start ->
  links !! 0 = Some first ->
  last links = Some closing ->
  Ring.bonds ring !! i = Some first ->
  Ring.bonds ring !! j = Some closing ->
  i < j ->
  length cycle <= fuel ->
  atomsInPlacementOrder fuel m start bond (Ring.bonds ring) = Some (Normal (drop 1 cycle)).
Proof.
  intros Hring Hbonds Hstart Hfirst Hclosing Hi Hj Hij Hfuel.
  pose proof Hring as (Hlen & Hsame & Hcycle & Hlinks & Hjoin).
  assert (Hnodup : NoDup (Ring.bonds ring)) by by rewrite Hbonds.
  apply (placement_from m cycle links Hring fuel 0 start first); try done; try lia.
  - intros b. by rewrite Hbonds, drop_0.
  - apply (find_first _ _ i); [done | |].
    + apply touches_otherAtom. destruct (Hjoin 0 first Hfirst) as (u & v & Hu & Hv & Hjn).
      rewrite Hstart in Hu. injection Hu as <-.
      destruct Hjn as (bd & Hbd & Hends). exists bd. split; [done|].
      destruct Hends as [[-> _]|[_ ->]]; tauto.
    + intros k y Hk Hy. apply not_true_iff_false. intros HP.
      apply touches_otherAtom in HP.
      assert (y ∈ links) as Hin.
      { rewrite <- Hbonds. apply list_elem_of_lookup. eauto. }
      destruct (links_at_atom m cycle links Hring y 0 start Hin Hstart HP)
        as (i' & Hi' & [->|Hafter]).
      * assert (y = first) as -> by congruence.
        pose proof (NoDup_lookup _ _ _ _ Hnodup Hy Hi). lia.
      * assert (y = closing) as ->.
        { rewrite last_lookup in Hclosing. unfold after in Hafter.
          destruct (S i' <? length cycle) eqn:Hlt; [done|]. apply Nat.ltb_ge in Hlt.
          apply lookup_lt_Some in Hi' as Hlt'.
          replace (pred (length links)) with i' in Hclosing by lia. congruence. }
        pose proof (NoDup_lookup _ _ _ _ Hnodup Hy Hj). lia.
Qed.

(** The walk of [placeFusedRing] on a simple ring: started at an atom of the
    shared bond, it collects the atoms of the ring that are not on the
    shared bond, all [n - 2] of them, each once, in ring order away from the
    shared bond, and it does not throw. *)
Theorem atomsToDraw_simple_ring (m : ModelMolecule) (ring : RingRing)
  (cycle : list AtomRef) (links : list BondRef) (shared : BondRef) (start : AtomRef) :
  SimpleRing m cycle links ->
  Ring.bonds ring ≡ₚ links ->
  links !! 0 = Some shared ->
  cycle !! 1 = Some start ->
  atomsToDraw m ring (Some shared) (Some start) = Normal (Some <$> drop 2 cycle).
Proof.
  intros Hring Hbonds Hshared Hstart. unfold atomsToDraw.
  pose proof Hring as (Hlen & Hsame & _).
  assert (Hsteps : Z.to_nat (len (Ring.bonds ring) - 2) = length cycle - 2).
  { unfold len. rewrite Hbonds, Hsame. lia. }
  rewrite Hsteps.
  rewrite (collect_on_ring m cycle links Hring ring Hbonds _ 0 shared start [])
    by (done || simpl; lia).
  simpl. by rewrite take_ge by (rewrite length_drop; lia).
Qed.


Lemma benzene_simple_ring :
  SimpleRing RingSamples.benzene [0; 1; 2; 3; 4; 5] [0; 1; 2; 3; 4; 5].
Proof.
  split; [simpl; lia|]. split; [done|].
  split; [by apply (bool_decide_unpack _); vm_compute|]. split; [by apply (bool_decide_unpack _); vm_compute|].
  intros i b Hb.
  do 6 (destruct i as [|i];
        [injection Hb as <-; do 2 eexists; split; [reflexivity|]; split; [reflexivity|];
         eexists; split; [reflexivity|]; simpl; tauto|]).
  done.
Qed.

Lemma atomsToDraw_simple_ring_witness :
  atomsToDraw RingSamples.benzene RingSamples.benzeneRing (Some 0) (Some 1)
  = Normal [Some 2; Some 3; Some 4; Some 5].
Proof.
  refine (atomsToDraw_simple_ring RingSamples.benzene RingSamples.benzeneRing
            [0; 1; 2; 3; 4; 5] [0; 1; 2; 3; 4; 5] 0 1 benzene_simple_ring _ eq_refl eq_refl).
  apply NoDup_Permutation; [by apply (bool_decide_unpack _); vm_compute | by apply (bool_decide_unpack _); vm_compute |].
  intros b. simpl. rewrite !elem_of_cons, !elem_of_nil. tauto.
Defined.

Lemma atomsInPlacementOrder_simple_ring_witness :
  atomsInPlacementOrder 6 RingSamples.benzene 0 None (Ring.bonds RingSamples.benzeneRing)
  = Some (Normal [1; 2; 3; 4; 5]).
Proof.
  refine (atomsInPlacementOrder_simple_ring RingSamples.benzene RingSamples.benzeneRing
            [0; 1; 2; 3; 4; 5] [0; 1; 2; 3; 4; 5] 6 0 0 5 None 1 2
            benzene_simple_ring _ eq_refl eq_refl eq_refl eq_refl eq_refl _ _);
    [|lia | simpl; lia].
  apply NoDup_Permutation; [by apply (bool_decide_unpack _); vm_compute | by apply (bool_decide_unpack _); vm_compute |].
  intros b. simpl. rewrite !elem_of_cons, !elem_of_nil. tauto.
Defined.

End RingPlacerFacts.

(** ** Shared atoms of two rings, and the cached centre *)

Module RingFacts.
Import JS Model RingPlacer RingCenter.

Lemma elem_of_getIntersectingAtoms (ring1 ring2 : RingRing) (a : AtomRef) :
  a ∈ getIntersectingAtoms ring1 ring2 <-> a ∈ Ring.atoms ring1 /\ a ∈ Ring.atoms ring2.
Proof.
  unfold getIntersectingAtoms.
  rewrite list_elem_of_In, List.filter_In, <- list_elem_of_In, bool_decide_eq_true. tauto.
Qed.

(** For rings that list no atom twice, the atoms two rings share do not
    depend on which ring is asked: the two answers hold the same atoms, each
    once, so the count that selects the spiro, fused or bridged placement is
    the same. *)
Theorem getIntersectingAtoms_symmetric (ring1 ring2 : RingRing) :
  NoDup (Ring.atoms ring1) -> NoDup (Ring.atoms ring2) ->
  getIntersectingAtoms ring1 ring2 ≡ₚ getIntersectingAtoms ring2 ring1 /\
  length (getIntersectingAtoms ring1 ring2) = length (getIntersectingAtoms ring2 ring1) /\
  (forall a, a ∈ getIntersectingAtoms ring1 ring2
             <-> a ∈ Ring.atoms ring1 /\ a ∈ Ring.atoms ring2).
Proof.
  intros H1 H2.
  assert (Hperm : getIntersectingAtoms ring1 ring2 ≡ₚ getIntersectingAtoms ring2 ring1).
  { apply NoDup_Permutation.
    - by apply NoDup_ListNoDup, List.NoDup_filter, NoDup_ListNoDup.
    - by apply NoDup_ListNoDup, List.NoDup_filter, NoDup_ListNoDup.
    - intros a. rewrite !elem_of_getIntersectingAtoms. tauto. }
  split; [done|]. split; [by rewrite Hperm|].
  apply elem_of_getIntersectingAtoms.
Qed.

Lemma getIntersectingAtoms_symmetric_witness :
  getIntersectingAtoms (Samples.newRing [0; 1; 2; 3; 4; 5] [])
                       (Samples.newRing [4; 5; 6; 7; 8; 9] [])
  ≡ₚ getIntersectingAtoms (Samples.newRing [4; 5; 6; 7; 8; 9] [])
                          (Samples.newRing [0; 1; 2; 3; 4; 5] []).
Proof.
  refine (proj1 (getIntersectingAtoms_symmetric
                   (Samples.newRing [0; 1; 2; 3; 4; 5] [])
                   (Samples.newRing [4; 5; 6; 7; 8; 9] []) _ _));
    by apply (bool_decide_unpack _); vm_compute.
Defined.

Lemma sumCoords_throws (atoms : list ModelAtom) (ring : list AtomRef) (avgX avgY : float) :
  (exists sums, sumCoords atoms ring avgX avgY = Normal sums /\
                forall a, a ∈ ring -> is_Some (atoms !! a ≫= coord)) \/
  (sumCoords atoms ring avgX avgY = Throw "TypeError" /\
   exists a, a ∈ ring /\ atoms !! a ≫= coord = None).
Proof.
  revert avgX avgY. induction ring as [|a ring IH]; intros avgX avgY; simpl.
  - left. eexists. split; [done|]. intros a Ha. by apply elem_of_nil in Ha.
  - destruct (atoms !! a ≫= coord) as [c|] eqn:Hc.
    + destruct (IH (avgX + x c)%float (avgY + y c)%float)
        as [(sums & Hs & Hall)|(Hthrow & b & Hb & Hnone)].
      * left. exists sums. split; [done|]. intros b Hb.
        apply elem_of_cons in Hb as [->|Hb]; [by rewrite Hc | by apply Hall].
      * right. split; [done|]. exists b. split; [by apply list_elem_of_further | done].
    + right. split; [done|]. exists a. split; [apply list_elem_of_here | done].
Qed.

(** [getCenter] throws exactly when no centre is cached and some atom of the
    ring has no coordinate; it never throws on a ring with a cached centre. *)
Theorem getCenter_throws (atoms : list ModelAtom) (this : RingRing) :
  (exists msg, getCenter atoms this = Throw msg) <->
  Ring._center this = None /\
  exists a, a ∈ Ring.atoms this /\ atoms !! a ≫= coord = None.
Proof.
  unfold getCenter. destruct (Ring._center this) as [center|].
  - split; [by intros [msg ?] | by intros [? _]].
  - destruct (sumCoords_throws atoms (Ring.atoms this) 0%float 0%float)
      as [(sums & -> & Hall)|(-> & a & Ha & Hnone)]; simpl.
    + split; [by intros [msg ?]|]. intros [_ (a & Ha & Hnone)].
      destruct (Hall a Ha) as [c Hc]. congruence.
    + split; [eauto | eauto].
Qed.

(** The centre is computed once: after a call that returned, every later
    call answers the same centre, wherever the atoms have been moved to in
    the meantime, until [resetRingCenter] is called; after the reset the ring
    is as if no centre had ever been computed. *)
Theorem getCenter_is_cached (atoms : list ModelAtom) (this this' : RingRing)
  (center : MathCoordinate) :
  getCenter atoms this = Normal (center, this') ->
  (forall moved, getCenter moved this' = Normal (center, this')) /\
  resetRingCenter this' = resetRingCenter this.
Proof.
  unfold getCenter. destruct (Ring._center this) as [c|] eqn:Hc.
  - intros [= <- <-]. split; [intros moved; by rewrite Hc | done].
  - destruct (sumCoords atoms (Ring.atoms this) 0 0) as [sums|msg]; simpl; [|done].
    intros [= <- <-]. split; [done|]. by destruct this.
Qed.

Lemma getCenter_is_cached_witness :
  getCenter []
    {| Ring.atoms := [0; 1]; Ring.bonds := []; Ring.flags := noFlags;
       Ring.isPlaced := false; Ring._center := Some {| x := 1%float; y := 2%float |} |}
  = Normal ({| x := 1%float; y := 2%float |},
            {| Ring.atoms := [0; 1]; Ring.bonds := []; Ring.flags := noFlags;
               Ring.isPlaced := false;
               Ring._center := Some {| x := 1%float; y := 2%float |} |}).
Proof.
  refine (proj1 (getCenter_is_cached
                   [{| coord := Some {| x := 0%float; y := 0%float |}; coords := None;
                       flags := noFlags |};
                    {| coord := Some {| x := 2%float; y := 4%float |}; coords := None;
                       flags := noFlags |}]
                   {| Ring.atoms := [0; 1]; Ring.bonds := []; Ring.flags := noFlags;
                      Ring.isPlaced := false; Ring._center := None |}
                   _ _ _) []).
  vm_compute. reflexivity.
Defined.

End RingFacts.

(** ** The coordinate generator: the steps of the alternation loop *)

Module GeneratorMore.
Import JS JSFacts Model CoordinateGenerator GeneratorFacts FirstBond Samples.

Lemma firstBoundaryAtom_None (st : State) (bc steps : nat) :
  firstBoundaryAtom st bc steps = Normal None <->
  steps <= length (drop bc (bonds (molecule st))) /\
  forall bond, bond ∈ take steps (drop bc (bonds (molecule st))) -> ~ onBoundary st bond.
Proof.
  unfold onBoundary. revert bc. induction steps as [|steps IH]; intros bc; simpl.
  - split; [|done]. intros _. split; [lia|].
    intros bond Hin. rewrite take_0 in Hin. by apply elem_of_nil in Hin.
  - destruct (bonds (molecule st) !! bc) as [bond|] eqn:Hbond.
    + rewrite (drop_S _ _ _ Hbond). simpl.
      destruct (atomFlag st (source bond) ISPLACED) eqn:Hs;
        destruct (atomFlag st (target bond) ISPLACED) eqn:Ht; simpl.
      * rewrite IH. split.
        -- intros [Hlen H]. split; [lia|]. intros b Hb.
           apply elem_of_cons in Hb as [->|Hb]; [congruence | by apply H].
        -- intros [Hlen H]. split; [lia|]. intros b Hb. apply H.
           by apply list_elem_of_further.
      * split; [done|]. intros [_ H]. exfalso.
        apply (H bond); [apply list_elem_of_here | congruence].
      * split; [done|]. intros [_ H]. exfalso.
        apply (H bond); [apply list_elem_of_here | congruence].
      * rewrite IH. split.
        -- intros [Hlen H]. split; [lia|]. intros b Hb.
           apply elem_of_cons in Hb as [->|Hb]; [congruence | by apply H].
        -- intros [Hlen H]. split; [lia|]. intros b Hb. apply H.
           by apply list_elem_of_further.
    + apply lookup_ge_None in Hbond. rewrite drop_ge by done. simpl.
      split; [done | intros [Hlen _]; lia].
Qed.

Lemma firstBoundaryAtom_Some (st : State) (bc steps : nat) (a : AtomRef) :
  firstBoundaryAtom st bc steps = Normal (Some a) ->
  atomFlag st a ISPLACED = true /\
  exists bond unplaced,
    bond ∈ take steps (drop bc (bonds (molecule st))) /\
    otherAtom bond a = Some unplaced /\ atomFlag st unplaced ISPLACED = false.
Proof.
  revert bc. induction steps as [|steps IH]; intros bc; simpl; [done|].
  destruct (bonds (molecule st) !! bc) as [bond|] eqn:Hbond; [|done].
  rewrite (drop_S _ _ _ Hbond). simpl.
  destruct (atomFlag st (source bond) ISPLACED) eqn:Hs;
    destruct (atomFlag st (target bond) ISPLACED) eqn:Ht; simpl.
  - intros H. destruct (IH _ H) as (Ha & b & u & Hb & Hrest). split; [done|].
    exists b, u. split; [by apply list_elem_of_further | done].
  - intros [= <-]. split; [done|]. exists bond, (target bond).
    split; [apply list_elem_of_here|]. split; [|done].
    unfold otherAtom. by rewrite decide_True.
  - intros [= <-]. split; [done|]. exists bond, (source bond).
    split; [apply list_elem_of_here|]. split; [|done].
    unfold otherAtom. rewrite decide_False by congruence. by rewrite decide_True.
  - intros H. destruct (IH _ H) as (Ha & b & u & Hb & Hrest). split; [done|].
    exists b, u. split; [by apply list_elem_of_further | done].
Qed.

Lemma firstBoundaryAtom_Throw (st : State) (bc steps : nat) (msg : string) :
  firstBoundaryAtom st bc steps = Throw msg <->
  msg = type_error /\
  length (drop bc (bonds (molecule st))) < steps /\
  forall bond, bond ∈ drop bc (bonds (molecule st)) -> ~ onBoundary st bond.
Proof.
  unfold onBoundary. revert bc. induction steps as [|steps IH]; intros bc; simpl.
  - split; [done | intros (_ & Hlen & _); lia].
  - destruct (bonds (molecule st) !! bc) as [bond|] eqn:Hbond.
    + rewrite (drop_S _ _ _ Hbond). simpl.
      destruct (atomFlag st (source bond) ISPLACED) eqn:Hs;
        destruct (atomFlag st (target bond) ISPLACED) eqn:Ht; simpl.
      * rewrite IH. split.
        -- intros (Hmsg & Hlen & H). split; [done|]. split; [lia|]. intros b Hb.
           apply elem_of_cons in Hb as [->|Hb]; [congruence | by apply H].
        -- intros (Hmsg & Hlen & H). split; [done|]. split; [lia|]. intros b Hb.
           apply H. by apply list_elem_of_further.
      * split; [done|]. intros (_ & _ & H). exfalso.
        apply (H bond); [apply list_elem_of_here | congruence].
      * split; [done|]. intros (_ & _ & H). exfalso.
        apply (H bond); [apply list_elem_of_here | congruence].
      * rewrite IH. split.
        -- intros (Hmsg & Hlen & H). split; [done|]. split; [lia|]. intros b Hb.
           apply elem_of_cons in Hb as [->|Hb]; [congruence | by apply H].
        -- intros (Hmsg & Hlen & H). split; [done|]. split; [lia|]. intros b Hb.
           apply H. by apply list_elem_of_further.
    + apply lookup_ge_None in Hbond. rewrite drop_ge by done. simpl. split.
      * intros [= <-]. split; [done|]. split; [lia|].
        intros b Hb. by apply elem_of_nil in Hb.
      * by intros (-> & _).
Qed.

(** [getNextAtomWithAliphaticUnplacedNeigbors] answers [null] exactly when
    [bondCount] does not exceed the number of bonds and none of the first
    [bondCount] bonds has one placed and one unplaced end; an atom it answers
    is placed and is joined by one of these bonds to an atom that is not
    placed; it throws, a [TypeError], exactly when [bondCount] exceeds the
    number of bonds and no bond of the molecule has one placed and one
    unplaced end.  No ring or aliphatic flag is consulted. *)
Theorem getNextAtomWithAliphaticUnplacedNeigbors_spec (st : State) (bondCount : nat) :
  (getNextAtomWithAliphaticUnplacedNeigbors st bondCount = Normal None <->
   bondCount <= countBonds (molecule st) /\
   forall bond, bond ∈ take bondCount (bonds (molecule st)) -> ~ onBoundary st bond) /\
  (forall a, getNextAtomWithAliphaticUnplacedNeigbors st bondCount = Normal (Some a) ->
     atomFlag st a ISPLACED = true /\
     exists bond unplaced,
       bond ∈ take bondCount (bonds (molecule st)) /\
       otherAtom bond a = Some unplaced /\ atomFlag st unplaced ISPLACED = false) /\
  (forall msg, getNextAtomWithAliphaticUnplacedNeigbors st bondCount = Throw msg <->
     msg = type_error /\
     countBonds (molecule st) < bondCount /\
     forall bond, bond ∈ bonds (molecule st) -> ~ onBoundary st bond).
Proof.
  unfold getNextAtomWithAliphaticUnplacedNeigbors, countBonds.
  split; [apply (firstBoundaryAtom_None st 0)|].
  split; [apply (firstBoundaryAtom_Some st 0) | apply (firstBoundaryAtom_Throw st 0)].
Qed.

(** Where none of the first [bondCount] bonds has exactly one placed end
    (all atoms placed, or none), [handleAliphatics] makes one pass, whatever
    the atom placer is: it hands the molecule back unchanged when [bondCount]
    does not exceed the number of bonds, and throws a [TypeError], the
    molecule unchanged, when it does. *)
Theorem handleAliphatics_idle `{Collaborators} (fuel : nat) (st : State) (bondCount : nat) :
  (forall bond, bond ∈ take bondCount (bonds (molecule st)) -> ~ onBoundary st bond) ->
  handleAliphatics (S fuel) st bondCount
  = Some (if bondCount <=? countBonds (molecule st) then Ok st else Raised type_error st).
Proof.
  intros Hnone. unfold handleAliphatics. rewrite handleAliphaticsLoop_unfold.
  unfold handleAliphaticsStep, getNextAtomWithAliphaticUnplacedNeigbors, countBonds.
  destruct (bondCount <=? length (bonds (molecule st))) eqn:Hcount.
  - apply Nat.leb_le in Hcount.
    by rewrite (proj2 (firstBoundaryAtom_None st 0 bondCount) (conj Hcount Hnone)).
  - apply Nat.leb_gt in Hcount.
    rewrite (proj2 (firstBoundaryAtom_Throw st 0 bondCount type_error)); [done|].
    split; [done|]. split; [done|].
    intros bond Hbond. apply Hnone. simpl in Hbond.
    rewrite take_ge by lia. done.
Qed.

(** Given a placer that neither adds nor removes atoms, [handleAliphatics]
    ends after at most [countAtoms + 1] passes of its loop: it returns, or a
    pass throws; either way the molecule has the same number of atoms. *)
Theorem handleAliphatics_returns `{Collaborators} (fuel : nat) (st : State) (bondCount : nat) :
  KeepsAtomCount ->
  countAtoms (molecule st) + 1 <= fuel ->
  exists r, handleAliphatics fuel st bondCount = Some r /\
            countAtoms (molecule (reached r)) = countAtoms (molecule st).
Proof.
  intros Hkeeps Hfuel. unfold handleAliphatics.
  apply handleAliphaticsLoop_returns; [done | lia | lia].
Qed.

Lemma forEach_preserves {A B} (proj : State -> B) (arr : list A)
  (callback : A -> State -> State) (st : State) :
  (forall a st, proj (callback a st) = proj st) ->
  proj (forEach arr callback st) = proj st.
Proof.
  intros Hstep. unfold forEach. revert st.
  induction arr as [|a arr IH]; intros st; simpl; [done|]. by rewrite IH.
Qed.

Lemma forEach_updateAtom_lookup (f : ModelAtom -> ModelAtom) (l : list AtomRef)
  (st : State) (i : AtomRef) :
  (forall atom, f (f atom) = f atom) ->
  atoms (molecule (forEach l (fun atom => updateAtom atom f) st)) !! i
  = (fun atom => if bool_decide (i ∈ l) then f atom else atom) <$> atoms (molecule st) !! i.
Proof.
  intros Hidem. unfold forEach. revert st. unfold AtomRef in *.
  induction l as [|a l IH]; intros st; simpl.
  - destruct (atoms (molecule st) !! i); done.
  - rewrite IH. simpl. destruct (decide (i = a)) as [->|Hne].
    + rewrite list_lookup_alter_eq. destruct (atoms (molecule st) !! a) as [atom|]; simpl; [|done].
      rewrite (bool_decide_eq_true_2 (a ∈ a :: l)) by apply list_elem_of_here.
      f_equal. case_bool_decide; [by rewrite Hidem | done].
    + rewrite list_lookup_alter_ne by done.
      destruct (atoms (molecule st) !! i) as [atom|]; simpl; [|done].
      f_equal. apply (f_equal (fun b : bool => if b then f atom else atom)).
      apply bool_decide_ext. rewrite elem_of_cons. split; [by right | by intros [?|?]].
Qed.

Lemma resetUnplacedRingAtoms_lookup (ringset : list RingRing) (st : State) (i : AtomRef) :
  atoms (molecule (resetUnplacedRingAtoms ringset st)) !! i
  = (fun atom => if inUnplacedRing ringset i then setFlag ISPLACED false atom else atom)
      <$> atoms (molecule st) !! i.
Proof.
  unfold resetUnplacedRingAtoms, forEach at 1. revert st.
  induction ringset as [|ring rest IH]; intros st; simpl.
  - destruct (atoms (molecule st) !! i); done.
  - rewrite IH. destruct (Ring.isPlaced ring); simpl; [done|].
    rewrite forEach_updateAtom_lookup by done.
    destruct (atoms (molecule st) !! i) as [atom|]; simpl; [|done].
    case_bool_decide; simpl; [|done]. by destruct (inUnplacedRing rest i).
Qed.

Lemma resetUnplacedRingAtoms_frame {B} (proj : State -> B) (ringset : list RingRing)
  (st : State) :
  (forall atom f st, proj (updateAtom atom f st) = proj st) ->
  proj (resetUnplacedRingAtoms ringset st) = proj st.
Proof.
  intros Hproj. unfold resetUnplacedRingAtoms. apply forEach_preserves.
  intros ring st'. destruct (Ring.isPlaced ring); simpl; [done|].
  apply forEach_preserves. intros. apply Hproj.
Qed.

(** [resetUnplacedRingAtoms] clears the [ISPLACED] flag of the atoms that
    belong to a ring of the set whose [isPlaced] is not set, and does nothing
    else: every other atom, every coordinate, the bonds and the ring objects
    stay as they are. *)
Theorem resetUnplacedRingAtoms_spec (ringset : list RingRing) (st : State) :
  sssr (resetUnplacedRingAtoms ringset st) = sssr st /\
  bonds (molecule (resetUnplacedRingAtoms ringset st)) = bonds (molecule st) /\
  forall i,
    atoms (molecule (resetUnplacedRingAtoms ringset st)) !! i
    = (fun atom => if inUnplacedRing ringset i then setFlag ISPLACED false atom else atom)
        <$> atoms (molecule st) !! i.
Proof.
  split; [by apply (resetUnplacedRingAtoms_frame sssr)|].
  split; [by apply (resetUnplacedRingAtoms_frame (fun st => bonds (molecule st)))|].
  apply resetUnplacedRingAtoms_lookup.
Qed.

(** [layoutNextRingSystem] never lays out a ring system, whatever the ring
    placer is: no ring object changes (so no ring becomes [isPlaced]), no
    coordinate changes, and an atom is flagged placed afterwards exactly when
    it was before and belongs to no ring whose [isPlaced] is not set. *)
Theorem layoutNextRingSystem_never_places `{Collaborators}
  (firstBondVector : MathVector2D) (st : State) (ringsets : list (list RingRef)) :
  sssr (layoutNextRingSystem firstBondVector st ringsets) = sssr st /\
  (forall i,
     coord <$> atoms (molecule (layoutNextRingSystem firstBondVector st ringsets)) !! i
     = coord <$> atoms (molecule st) !! i) /\
  (forall i,
     atomFlag (layoutNextRingSystem firstBondVector st ringsets) i ISPLACED
     = atomFlag st i ISPLACED && negb (inUnplacedRing (sssr st) i)).
Proof.
  rewrite layoutNextRingSystem_resets.
  split; [by apply (resetUnplacedRingAtoms_frame sssr)|].
  split; intros i; unfold atomFlag; rewrite resetUnplacedRingAtoms_lookup;
    unfold AtomRef in *; destruct (atoms (molecule st) !! i) as [atom|]; simpl; try done.
  - by destruct (inUnplacedRing (sssr st) i).
  - destruct (inUnplacedRing (sssr st) i); simpl; [by rewrite andb_false_r|].
    by rewrite andb_true_r.
Qed.

(** [bond.otherAtom] answers [null] exactly for an atom that is at neither
    end of the bond; asked again with its own answer it gives the first atom
    back, also on a bond from an atom to itself. *)
Theorem otherAtom_involutive (bond : ModelBond) (atom : AtomRef) :
  (otherAtom bond atom = None <-> atom <> source bond /\ atom <> target bond) /\
  (forall other, otherAtom bond atom = Some other -> otherAtom bond other = Some atom).
Proof.
  unfold otherAtom. split.
  - destruct (decide (atom = source bond)), (decide (atom = target bond));
      intuition congruence.
  - intros other. destruct (decide (atom = source bond)) as [Hs|Hs].
    + intros [= <-]. destruct (decide (target bond = source bond)); [congruence|].
      rewrite decide_True by done. congruence.
    + destruct (decide (atom = target bond)) as [Ht|Ht]; [|done].
      intros [= <-]. rewrite decide_True by done. congruence.
Qed.

(** [placeFirstBond] returns the two ends of the bond and leaves the vector
    normalized and scaled to the bond length.  The target lies at the vector
    and is flagged placed; the source lies at the origin and is flagged
    placed, unless the bond joins an atom to itself, in which case that atom
    ends at the vector.  No other atom and no ring object is touched. *)
Theorem placeFirstBond_spec `{Collaborators} `{VectorOps}
  (bond : ModelBond) (vector : MathVector2D) (st : State) :
  (placeFirstBond bond vector st).1.1 = [source bond; target bond] /\
  (placeFirstBond bond vector st).1.2 = scale bondLength (normalize vector) /\
  sssr (placeFirstBond bond vector st).2 = sssr st /\
  (forall i, i <> source bond -> i <> target bond ->
     atoms (molecule (placeFirstBond bond vector st).2) !! i = atoms (molecule st) !! i) /\
  atoms (molecule (placeFirstBond bond vector st).2) !! target bond
  = (fun atom =>
       {| coord := Some {| x := Vector2D.x (scale bondLength (normalize vector));
                           y := Vector2D.y (scale bondLength (normalize vector)) |};
          coords := coords atom;
          flags := writeFlag ISPLACED true (flags atom) |})
      <$> atoms (molecule st) !! target bond /\
  (source bond <> target bond ->
   atoms (molecule (placeFirstBond bond vector st).2) !! source bond
   = (fun atom => {| coord := Some origin; coords := coords atom;
                     flags := writeFlag ISPLACED true (flags atom) |})
       <$> atoms (molecule st) !! source bond).
Proof.
  unfold placeFirstBond; simpl. unfold AtomRef in *.
  split; [done|]. split; [done|]. split; [done|].
  split; [|split].
  - intros i Hs Ht. by rewrite !list_lookup_alter_ne.
  - rewrite !list_lookup_alter_eq. destruct (decide (target bond = source bond)) as [Heq|Hne].
    + rewrite Heq, !list_lookup_alter_eq.
      by destruct (@lookup nat _ _ _ (source bond) (atoms (molecule st))).
    + rewrite !list_lookup_alter_ne by done.
      by destruct (@lookup nat _ _ _ (target bond) (atoms (molecule st))).
  - intros Hne. rewrite !list_lookup_alter_ne by done. rewrite !list_lookup_alter_eq.
    by destruct (@lookup nat _ _ _ (source bond) (atoms (molecule st))).
Qed.

Lemma handleAliphatics_idle_witness :
  @handleAliphatics flaggingPlacer 1 (resetFlags propane) 2 = Some (Ok (resetFlags propane)).
Proof.
  refine (@handleAliphatics_idle flaggingPlacer 0 (resetFlags propane) 2 _).
  intros bond Hin. vm_compute in Hin.
  apply elem_of_cons in Hin as [->|Hin]; [by vm_compute|].
  apply elem_of_cons in Hin as [->|Hin]; [by vm_compute|].
  by apply elem_of_nil in Hin.
Defined.

Lemma handleAliphatics_returns_witness :
  exists r,
    @handleAliphatics flaggingPlacer 4 (flagPlaced [0] (resetFlags propane)) 2 = Some r /\
    countAtoms (molecule (reached r)) = 3.
Proof.
  refine (@handleAliphatics_returns flaggingPlacer 4 (flagPlaced [0] (resetFlags propane)) 2
            GeneratorSpec.flaggingPlacer_keeps_atoms _).
  vm_compute. lia.
Defined.

Lemma foldl_preserves {A B} (P : A -> Prop) (f : A -> B -> A) (l : list B) (a : A) :
  (forall a b, P a -> P (f a b)) -> P a -> P (foldl f a l).
Proof.
  intros Hstep. revert a. induction l as [|b l IH]; intros a Ha; simpl; [done|].
  apply IH, Hstep, Ha.
Qed.

Lemma foldl_ext_all {A B} (f g : A -> B -> A) (l : list B) (a : A) :
  (forall a b, f a b = g a b) -> foldl f a l = foldl g a l.
Proof.
  intros Hfg. revert a. induction l as [|b l IH]; intros a; simpl; [done|].
  by rewrite Hfg, IH.
Qed.

Lemma countNeighbors_length (store : list RingRing) (ringSet : list RingRef) :
  length (countNeighbors store ringSet) = length ringSet.
Proof.
  unfold countNeighbors.
  apply (foldl_preserves (fun neighbors => length neighbors = length ringSet));
    [|apply length_replicate].
  intros neighbors i Hlen. destruct (lookupRing store ringSet i) as [[r1 ring1]|]; [|done].
  apply (foldl_preserves (fun neighbors => length neighbors = length ringSet)); [|done].
  clear neighbors Hlen. intros neighbors j Hlen. unfold countForElement.
  apply (foldl_preserves (fun neighbors => length neighbors = length ringSet)); [|done].
  clear neighbors Hlen. intros neighbors k Hlen.
  destruct (lookupRing store ringSet k) as [[r2 ring2]|]; [|done].
  destruct (decide (r1 <> r2)); [|done].
  destruct (matchesSomeElement (ringElement ring1 j) ring2); [|done].
  unfold increment. by rewrite !length_alter.
Qed.

Lemma mostComplexPosition_lt (neighbors : list nat) :
  neighbors <> [] -> mostComplexPosition neighbors < length neighbors.
Proof.
  intros Hne. unfold mostComplexPosition.
  apply (foldl_preserves (fun acc : nat * nat => acc.2 < length neighbors)).
  - intros [mostComplex position] i Hpos. simpl in *.
    destruct (neighbors !! i) as [c|] eqn:Hc; [|done].
    destruct (mostComplex <? c); [|done]. simpl. by apply lookup_lt_Some in Hc.
  - simpl. destruct neighbors; [done | simpl; lia].
Qed.

(** [getMostComplexRing] answers one of the rings of the set it is given; the
    answer is [undefined] only for the empty set. *)
Theorem getMostComplexRing_in_ringSet (store : list RingRing) (ringSet : list RingRef) :
  (getMostComplexRing store ringSet = None <-> ringSet = []) /\
  (forall r, getMostComplexRing store ringSet = Some r -> r ∈ ringSet).
Proof.
  unfold getMostComplexRing. split.
  - rewrite lookup_ge_None. split.
    + intros Hge. destruct ringSet as [|r ringSet]; [done|].
      pose proof (mostComplexPosition_lt (countNeighbors store (r :: ringSet))) as Hlt.
      rewrite countNeighbors_length in Hlt.
      assert (countNeighbors store (r :: ringSet) <> []) as Hne.
      { intros Hnil. apply (f_equal length) in Hnil.
        rewrite countNeighbors_length in Hnil. done. }
      specialize (Hlt Hne). lia.
    + intros ->. simpl. lia.
  - intros r Hr. by apply list_elem_of_lookup_2 in Hr.
Qed.

(** The ring that [getMostComplexRing] picks depends on how many atoms each
    ring has and not on which atoms they are: ring sets whose rings have the
    same sizes get the same answer, whether their rings share atoms or not. *)
Theorem getMostComplexRing_sizes_only (store store' : list RingRing) (ringSet : list RingRef) :
  map (fun ring => length (Ring.atoms ring)) store
  = map (fun ring => length (Ring.atoms ring)) store' ->
  getMostComplexRing store ringSet = getMostComplexRing store' ringSet.
Proof.
  intros Hsizes.
  assert (forall r, (fun ring => length (Ring.atoms ring)) <$> store !! r
                    = (fun ring => length (Ring.atoms ring)) <$> store' !! r) as Hlook.
  { intros r.
    pose proof (f_equal (fun sizes => sizes !! r)
                  (Hsizes : (fun ring => length (Ring.atoms ring)) <$> store
                            = (fun ring => length (Ring.atoms ring)) <$> store')) as Hr.
    simpl in Hr. by rewrite !list_lookup_fmap in Hr. }
  unfold getMostComplexRing. f_equal. f_equal. unfold countNeighbors.
  apply foldl_ext_all. intros neighbors i. unfold lookupRing.
  destruct (ringSet !! i) as [r1|]; simpl; [|done].
  pose proof (Hlook r1) as Hr1. unfold RingRef in *.
  destruct (store !! r1) as [ring1|], (store' !! r1) as [ring1'|]; simpl in *; try done.
  injection Hr1 as Hr1. rewrite Hr1.
  apply foldl_ext_all. clear neighbors. intros neighbors j. unfold countForElement.
  apply foldl_ext_all. clear neighbors. intros neighbors k. unfold lookupRing.
  unfold RingRef in *.
  destruct (ringSet !! k) as [r2|]; simpl; [|done].
  pose proof (Hlook r2) as Hr2. unfold RingRef in *.
  destruct (store !! r2) as [ring2|], (store' !! r2) as [ring2'|]; simpl in *; try done.
  injection Hr2 as Hr2. destruct (decide (r1 <> r2)); [|done].
  unfold matchesSomeElement, ringElement. by rewrite Hr2.
Qed.

Lemma getMostComplexRing_sizes_only_witness :
  getMostComplexRing anthracene [0; 1; 2]
  = getMostComplexRing
      [newRing [0; 1; 2; 3; 4; 5] []; newRing [6; 7; 8; 9; 10; 11] [];
       newRing [12; 13; 14; 15; 16; 17] []] [0; 1; 2].
Proof.
  refine (getMostComplexRing_sizes_only anthracene _ [0; 1; 2] _). reflexivity.
Defined.

End GeneratorMore.
